(** * CyberGuard UI: the terminal panel (gui/terminal_emulator.py)

    A shallow embedding of [TerminalWidget]: the widget's fields, the
    background function [run_in_thread] that feeds the queue, and the
    slots that run on the UI thread ([update_output], [stop_command],
    [save_output], ...).

    Python [str] values are held as Rocq strings carrying the UTF-8 bytes
    of the text. *)

From Stdlib Require Import ZArith Ascii String DecimalString DecimalFacts DecimalPos.
From stdpp Require Import base list strings gmap.

(** ** Text helpers *)

(** The character written [\n] in the Python source. *)
Definition nl : string := String (ascii_of_nat 10) EmptyString.

(** [str(n)] for a Python [int]: decimal digits, [-] in front of a
    negative number. *)
Definition str_int (n : Z) : string := NilZero.string_of_int (Z.to_int n).

(** Truth value of a [str]: only the empty string is false. *)
Definition truthy (s : string) : bool := negb (String.eqb s "").

(** ** gui/styles.py *)

(** [get_colors()]: the theme dictionary. *)
Definition get_colors : gmap string string :=
  list_to_map
    [ ("background", "#0d1117"); ("surface", "#161b22");
      ("surface_hover", "#1c2128"); ("border", "#30363d");
      ("text_primary", "#c9d1d9"); ("text_secondary", "#8b949e");
      ("accent", "#58a6ff"); ("success", "#3fb950");
      ("warning", "#d29922"); ("danger", "#f85149");
      ("info", "#a371f7") ].

(** [self.colors[key]] for the keys the widget uses. *)
Definition colors (key : string) : string := get_colors !!! key.

(** ** Data *)

(** A [QTextCharFormat] as the widget sets it up: a foreground colour and,
    for the echoed command, a bold font weight. *)
Record QTextCharFormat := mkFormat {
  foreground : string;
  bold : bool
}.

(** A [QLabel]: its text and its style sheet. *)
Record QLabel := mkLabel {
  text : string;
  styleSheet : string
}.

(** The tuples put on [output_queue]. *)
Inductive msg :=
| MOutput (line : string)        (* ('output', line) *)
| MFinished (return_code : Z)    (* ('finished', return_code) *)
| MError (e : string).           (* ('error', str(e)) *)

(** Where a background thread stands inside [run_in_thread].  A thread
    moves when one of its blocking calls returns. *)
Inductive pc :=
| AtPopen                 (* about to call subprocess.Popen *)
| AtReadline (p : nat)    (* in the for loop, reading the stdout of child p *)
| AtWait                  (* the loop has ended; wait() is next *)
| Returned.               (* run_in_thread has returned *)

Record thread := mkThread {
  command : string;
  working_dir : option string;
  at_pc : pc
}.

(** The widget together with what it acts on.  A [Popen] object is named
    by its index in [children]. *)
Record state := mkState {
  (* fields of TerminalWidget *)
  current_process : option nat;
  output_queue : list msg;                       (* front of the queue first *)
  status_label : QLabel;
  stop_btn : bool;                               (* isEnabled() *)
  output : list (string * QTextCharFormat);      (* the QTextEdit, one entry per insertText *)
  (* threads started by execute_command *)
  threads : list thread;
  (* the world outside *)
  children : list (string * option string);      (* Popen(command, cwd=...) calls that succeeded *)
  terminated : list nat;                         (* terminate() calls, oldest first *)
  emitted : list (Z * string);                   (* command_finished.emit(code, text) *)
  puts : list (nat * msg)                        (* every put on the queue, with the thread that made it *)
}.

Definition set_current_process v w :=
  mkState v (output_queue w) (status_label w) (stop_btn w) (output w)
          (threads w) (children w) (terminated w) (emitted w) (puts w).
Definition set_output_queue v w :=
  mkState (current_process w) v (status_label w) (stop_btn w) (output w)
          (threads w) (children w) (terminated w) (emitted w) (puts w).
Definition set_status_label v w :=
  mkState (current_process w) (output_queue w) v (stop_btn w) (output w)
          (threads w) (children w) (terminated w) (emitted w) (puts w).
Definition set_stop_btn v w :=
  mkState (current_process w) (output_queue w) (status_label w) v (output w)
          (threads w) (children w) (terminated w) (emitted w) (puts w).
Definition set_output v w :=
  mkState (current_process w) (output_queue w) (status_label w) (stop_btn w) v
          (threads w) (children w) (terminated w) (emitted w) (puts w).
Definition set_threads v w :=
  mkState (current_process w) (output_queue w) (status_label w) (stop_btn w) (output w)
          v (children w) (terminated w) (emitted w) (puts w).
Definition set_children v w :=
  mkState (current_process w) (output_queue w) (status_label w) (stop_btn w) (output w)
          (threads w) v (terminated w) (emitted w) (puts w).
Definition set_terminated v w :=
  mkState (current_process w) (output_queue w) (status_label w) (stop_btn w) (output w)
          (threads w) (children w) v (emitted w) (puts w).
Definition set_emitted v w :=
  mkState (current_process w) (output_queue w) (status_label w) (stop_btn w) (output w)
          (threads w) (children w) (terminated w) v (puts w).
Definition set_puts v w :=
  mkState (current_process w) (output_queue w) (status_label w) (stop_btn w) (output w)
          (threads w) (children w) (terminated w) (emitted w) v.

(** ** The widget on the UI thread *)

(** The two faces of the status indicator. *)
Definition idle_label : QLabel :=
  mkLabel "● Idle" ("color: " +:+ colors "success" +:+ ";").
Definition running_label : QLabel :=
  mkLabel "● Running" ("color: " +:+ colors "warning" +:+ ";").

(** [__init__] and [setup_ui]. *)
Definition init : state :=
  mkState None [] idle_label false [] [] [] [] [] [].

(** The line feed, as a character. *)
Definition lf : Ascii.ascii := ascii_of_nat 10.

(** What [toPlainText()] gives back of a text handed to [insertText].
    [insertText] starts a new block at [\n], at [\r] (a [\r\n] pair
    counts once), at U+2029 and at U+FDD0 and U+FDD1, which Qt keeps for
    its frames; [toPlainText()] writes a block boundary and U+2028 as
    [\n], and U+00A0 as a space.  On the UTF-8 bytes of the text: 0D 0A
    and 0D become 0A; E2 80 A8, E2 80 A9, EF B7 90 and EF B7 91 become
    0A; C2 A0 becomes 20; every other byte is kept. *)
Fixpoint qt_plain (s : string) : string :=
  match s with
  | EmptyString => EmptyString
  | String c s1 =>
      let n := N_of_ascii c in
      if (n =? 13)%N then
        match s1 with
        | String d s2 =>
            if (N_of_ascii d =? 10)%N then String lf (qt_plain s2)
            else String lf (qt_plain s1)
        | EmptyString => String lf EmptyString
        end
      else if (n =? 194)%N then
        match s1 with
        | String d s2 =>
            if (N_of_ascii d =? 160)%N then String " " (qt_plain s2)
            else String c (qt_plain s1)
        | EmptyString => String c EmptyString
        end
      else if (n =? 226)%N then
        match s1 with
        | String d (String e s3) =>
            if (N_of_ascii d =? 128)%N
               && ((N_of_ascii e =? 168)%N || (N_of_ascii e =? 169)%N)
            then String lf (qt_plain s3)
            else String c (qt_plain s1)
        | _ => String c (qt_plain s1)
        end
      else if (n =? 239)%N then
        match s1 with
        | String d (String e s3) =>
            if (N_of_ascii d =? 183)%N
               && ((N_of_ascii e =? 144)%N || (N_of_ascii e =? 145)%N)
            then String lf (qt_plain s3)
            else String c (qt_plain s1)
        | _ => String c (qt_plain s1)
        end
      else String c (qt_plain s1)
  end.

(** [self.output.toPlainText()]: the texts inserted, each as Qt gives
    it back, one after the other. *)
Definition plain_text (doc : list (string * QTextCharFormat)) : string :=
  foldr (fun r acc => qt_plain r.1 +:+ acc) "" doc.
Definition toPlainText (w : state) : string := plain_text (output w).

(** The format [append_output] builds for a style name. *)
Definition format_of (style : string) : QTextCharFormat :=
  if String.eqb style "command" then mkFormat (colors "accent") true
  else if String.eqb style "error" then mkFormat (colors "danger") false
  else if String.eqb style "success" then mkFormat (colors "success") false
  else mkFormat (colors "text_primary") false.

(** [append_output(text, style)]: insert at the end of the document. *)
Definition append_output (text : string) (style : string) (w : state) : state :=
  set_output (output w ++ [(text, format_of style)]) w.

(** [execute_command(command, working_dir)]: echo the command, show
    "Running", enable the stop button and start the thread. *)
Definition execute_command (command : string) (working_dir : option string)
    (w : state) : state :=
  let w := append_output (nl +:+ "$ " +:+ command +:+ nl) "command" w in
  let w := set_status_label running_label w in
  let w := set_stop_btn true w in
  set_threads (threads w ++ [mkThread command working_dir AtPopen]) w.

(** [on_command_finished(return_code)]. *)
Definition on_command_finished (return_code : Z) (w : state) : state :=
  let w := set_status_label idle_label w in
  let w := set_stop_btn false w in
  let w :=
    if (return_code =? 0)%Z
    then append_output (nl +:+ "✓ Command completed successfully" +:+ nl) "success" w
    else append_output
           (nl +:+ "✗ Command failed (exit code " +:+ str_int return_code +:+ ")" +:+ nl)
           "error" w in
  let w := set_current_process None w in
  set_emitted (emitted w ++ [(return_code, toPlainText w)]) w.

(** The body of the loop of [update_output] for one message. *)
Definition dispatch (m : msg) (w : state) : state :=
  match m with
  | MOutput data => append_output data "output" w
  | MFinished data => on_command_finished data w
  | MError data => append_output (nl +:+ "Error: " +:+ data +:+ nl) "error" w
  end.

(** The [while True] loop of [update_output]: [get_nowait] takes the
    front message; on an empty queue it raises [Empty], which ends the
    loop. *)
Fixpoint drain (q : list msg) (w : state) : state :=
  match q with
  | [] => set_output_queue [] w
  | m :: q' => drain q' (dispatch m (set_output_queue q' w))
  end.

Definition update_output (w : state) : state := drain (output_queue w) w.

(** [stop_command()].  A [Popen] object is true, [None] is false. *)
Definition stop_command (w : state) : state :=
  match current_process w with
  | Some p =>
      let w := set_terminated (terminated w ++ [p]) w in
      append_output (nl +:+ "⚠ Command terminated by user" +:+ nl) "warning" w
  | None => w
  end.

(** [clear_output()]. *)
Definition clear_output (w : state) : state := set_output [] w.

(** ** The background thread *)

(** What a blocking call of [run_in_thread] comes back with.  An
    exception is carried as its [str()]; the calls raise [OSError],
    [ValueError] and the like, all of them [Exception]s. *)
Inductive reply :=
| PopenReturns                      (* Popen(...) gave a new child *)
| PopenRaises (e : string)
| ReadlineReturns (line : string)   (* '' at the end of the stream *)
| ReadlineRaises (e : string)
| WaitReturns (returncode : Z)      (* wait() returned; returncode holds the exit status *)
| WaitRaises (e : string).

(** [self.output_queue.put(m)] called by thread [tid]. *)
Definition put (tid : nat) (m : msg) (w : state) : state :=
  set_puts (puts w ++ [(tid, m)]) (set_output_queue (output_queue w ++ [m]) w).

(** Thread [tid] moves to [l]. *)
Definition goto (tid : nat) (l : pc) (w : state) : state :=
  set_threads
    (alter (fun th => mkThread (command th) (working_dir th) l) tid (threads w)) w.

(** The [except Exception as e] clause. *)
Definition except_Exception (tid : nat) (e : string) (w : state) : state :=
  goto tid Returned (put tid (MError e) w).

(** What evaluating [self.current_process.wait] raises when the
    attribute holds [None]. *)
Definition AttributeError_wait : string :=
  "'NoneType' object has no attribute 'wait'".

(** One move of [run_in_thread] in thread [tid], taken when the blocking
    call it stands at comes back with [r].
    - [AtPopen]: [self.current_process = subprocess.Popen(...)]; the
      iterator of the [for] loop is then bound to the new child's stdout.
    - [AtReadline p]: one [readline()]; [''] is the sentinel of [iter]
      and ends the loop, any other line goes through [if line:].
    - [AtWait]: [self.current_process.wait()], the read of [returncode]
      and the put of [('finished', return_code)], taken together at the
      moment [wait()] is over; [self.current_process] is read then.
    A reply that does not belong to the call the thread stands at leaves
    the state as it is. *)
Definition run_in_thread (tid : nat) (r : reply) (w : state) : state :=
  match threads w !! tid with
  | None => w
  | Some th =>
      match at_pc th, r with
      | AtPopen, PopenReturns =>
          let p := length (children w) in
          let w := set_children (children w ++ [(command th, working_dir th)]) w in
          let w := set_current_process (Some p) w in
          goto tid (AtReadline p) w
      | AtPopen, PopenRaises e => except_Exception tid e w
      | AtReadline p, ReadlineReturns line =>
          if String.eqb line "" then goto tid AtWait w
          else if truthy line then put tid (MOutput line) w
          else w
      | AtReadline p, ReadlineRaises e => except_Exception tid e w
      | AtWait, WaitReturns returncode =>
          match current_process w with
          | None => except_Exception tid AttributeError_wait w
          | Some _ => goto tid Returned (put tid (MFinished returncode) w)
          end
      | AtWait, WaitRaises e =>
          match current_process w with
          | None => except_Exception tid AttributeError_wait w
          | Some _ => except_Exception tid e w
          end
      | _, _ => w
      end
  end.

(** ** Runs of the program *)

(** What can happen next: a slot runs on the UI thread, or a background
    thread gets the reply it was blocked on. *)
Inductive action :=
| Execute (command : string) (working_dir : option string)   (* execute_command *)
| Tick                                                       (* update_timer fires: update_output *)
| Stop                                                       (* stop_btn clicked: stop_command *)
| Clear                                                      (* clear_btn clicked: clear_output *)
| Thread (tid : nat) (r : reply).

Definition step (w : state) (a : action) : state :=
  match a with
  | Execute command working_dir => execute_command command working_dir w
  | Tick => update_output w
  | Stop => stop_command w
  | Clear => clear_output w
  | Thread tid r => run_in_thread tid r w
  end.

Definition run (w : state) (s : list action) : state := foldl step w s.

(** The messages thread [tid] has put, oldest first. *)
Definition puts_of (tid : nat) (w : state) : list msg :=
  (filter (fun x => x.1 = tid) (puts w)).*2.

Definition is_finished (m : msg) : bool :=
  match m with MFinished _ => true | _ => false end.
Definition is_error (m : msg) : bool :=
  match m with MError _ => true | _ => false end.

(** A terminal event ends an invocation: [finished] or [error]. *)
Definition is_terminal (m : msg) : bool := is_finished m || is_error m.

Definition returned (th : thread) : bool :=
  match at_pc th with Returned => true | _ => false end.

(** ** Saving the log *)

(** The program runs on Linux (it calls [os.geteuid] and [apt]), and
    [save_output] is a slot of a widget, so a [QApplication] of Qt 6
    exists when it runs.  [open(path, 'w')] names neither an encoding nor
    a newline mode: the file object takes the encoding of the locale,
    which Qt 6 has made a UTF-8 one, and writes [os.linesep] for every
    [\n]. *)
Definition linesep : string := nl.

(** [str.encode('utf-8')]: a [str] is held as its UTF-8 bytes. *)
Definition encode_utf_8 (s : string) : string := s.

(** The exceptions [save_output] can let through. *)
Inductive exn :=
| OSError (e : string).

(** Newline translation of a text file opened for writing. *)
Fixpoint translate_newlines (sep : string) (s : string) : string :=
  match s with
  | EmptyString => EmptyString
  | String c s' =>
      if Ascii.eqb c (ascii_of_nat 10) then sep +:+ translate_newlines sep s'
      else String c (translate_newlines sep s')
  end.

(** What the operating system does with the file. *)
Inductive io_reply :=
| IoOk
| OpenRaises (e : string)                       (* open() fails *)
| WriteRaises (e : string) (on_disk : string).  (* writing or closing fails, on_disk is what got through *)

(** [save_output()].  [path] is what the file dialog returned, [''] when
    it was cancelled.  The files are a map from file to contents, and
    [resolve] is the operating system's way from a path to the file it
    names (two paths can name one file).  [open] truncates the file; the
    text is written when the [with] block closes it. *)
Definition save_output (resolve : string -> nat) (path : string) (io : io_reply)
    (w : state) (fs : gmap nat string) : gmap nat string * option exn :=
  if truthy path then
    match io with
    | OpenRaises e => (fs, Some (OSError e))
    | WriteRaises e on_disk => (<[resolve path := on_disk]> fs, Some (OSError e))
    | IoOk =>
        (<[resolve path := encode_utf_8 (translate_newlines linesep (toPlainText w))]> fs,
         None)
    end
  else (fs, None).

(** ** Notions used in the statements *)

(** The success and failure markers of [on_command_finished]. *)
Definition success_marker : string * QTextCharFormat :=
  (nl +:+ "✓ Command completed successfully" +:+ nl, mkFormat (colors "success") false).
Definition failure_marker (code : Z) : string * QTextCharFormat :=
  (nl +:+ "✗ Command failed (exit code " +:+ str_int code +:+ ")" +:+ nl,
   mkFormat (colors "danger") false).

(** The invocation of a command in a directory that does not exist:
    [Popen] raises, the thread puts the error event, the timer drains it. *)
Definition spawn_failure : list action :=
  [Execute "ls" (Some "/nonexistent");
   Thread 0 (PopenRaises "[Errno 2] No such file or directory: '/nonexistent'");
   Tick].

(** A state with one child running. *)
Definition one_running : state :=
  run init [Execute "sleep 100" None; Thread 0 PopenReturns].

(** Thread [th] standing at [l]. *)
Definition with_pc (l : pc) (th : thread) : thread :=
  mkThread (command th) (working_dir th) l.

(** The moves of one thread: where it stood, what it put, where it
    stands afterwards. *)
Inductive move : pc -> list msg -> pc -> Prop :=
| move_none l : move l [] l
| move_spawn p : move AtPopen [] (AtReadline p)
| move_line p line : line <> "" -> move (AtReadline p) [MOutput line] (AtReadline p)
| move_eof p : move (AtReadline p) [] AtWait
| move_return l t : l <> Returned -> is_terminal t = true -> move l [t] Returned.

(** The shape of a thread's put history: one [output] for each line read
    so far, none of them empty, and at the end, once the thread has
    returned and only then, one terminal event. *)
Definition shape (th : thread) (ms : list msg) : Prop :=
  exists lines, Forall (fun l => l <> "") lines /\
    if returned th
    then exists t, is_terminal t = true /\ ms = (MOutput <$> lines) ++ [t]
    else ms = MOutput <$> lines.

(** What holds of every state a run reaches: puts are made by threads
    of the table, and every thread's history has the shape above. *)
Definition inv (w : state) : Prop :=
  Forall (fun x => x.1 < length (threads w)) (puts w)
  /\ forall tid th, threads w !! tid = Some th -> shape th (puts_of tid w).

(** The number of terminal events thread [tid] has put. *)
Definition terminal_events (tid : nat) (w : state) : nat :=
  length (filter (fun m => is_terminal m = true) (puts_of tid w)).

(** The replies thread [tid] gets when its child, with nothing more to
    say, exits with status [rc]: end of stream, then [wait()] returns. *)
Definition exit_replies (l : pc) (rc : Z) : list reply :=
  match l with
  | AtPopen => [PopenReturns; ReadlineReturns ""; WaitReturns rc]
  | AtReadline _ => [ReadlineReturns ""; WaitReturns rc]
  | AtWait => [WaitReturns rc]
  | Returned => []
  end.

(** [Popen] or [readline] raises [e] at the call the thread stands at. *)
Definition raises_at (l : pc) (r : reply) (e : string) : Prop :=
  (l = AtPopen /\ r = PopenRaises e)
  \/ (exists p, l = AtReadline p /\ r = ReadlineRaises e).

(** The replies thread [tid] receives in a run, oldest first. *)
Definition replies_of (tid : nat) (s : list action) : list reply :=
  omap (fun a => match a with
                 | Thread t r => if decide (t = tid) then Some r else None
                 | _ => None
                 end) s.


(** What a thread sees of a child that starts, writes [lines] and exits
    with status [rc]. *)
Definition normal_replies (lines : list string) (rc : Z) : list reply :=
  PopenReturns :: (ReadlineReturns <$> lines) ++ [ReadlineReturns ""; WaitReturns rc].

(** No [finished] event among the messages [q]. *)
Definition no_finished (q : list msg) : Prop :=
  Forall (fun m => is_finished m = false) q.

(** Thread [tid] is the only one still running, it stands where the
    replies still to come ([rest]) say, and no [finished] event waits on
    the queue, so nothing will clear [current_process] under it. *)
Definition on_track (tid : nat) (rc : Z) (w : state) (rest : list reply)
    (todo : list msg) : Prop :=
  (forall t th, t <> tid -> threads w !! t = Some th -> returned th = true)
  /\ exists th, threads w !! tid = Some th /\
     match at_pc th with
     | AtPopen =>
         no_finished (output_queue w) /\
         exists lines, Forall (fun l => l <> "") lines
           /\ rest = normal_replies lines rc
           /\ todo = (MOutput <$> lines) ++ [MFinished rc]
     | AtReadline _ =>
         no_finished (output_queue w) /\ is_Some (current_process w) /\
         exists lines, Forall (fun l => l <> "") lines
           /\ rest = (ReadlineReturns <$> lines) ++ [ReadlineReturns ""; WaitReturns rc]
           /\ todo = (MOutput <$> lines) ++ [MFinished rc]
     | AtWait =>
         no_finished (output_queue w) /\ is_Some (current_process w)
         /\ rest = [WaitReturns rc] /\ todo = [MFinished rc]
     | Returned => rest = [] /\ todo = []
     end.

(** The entries of the put history for messages [ms] of thread [tid]. *)
Definition tagged (tid : nat) (ms : list msg) : list (nat * msg) :=
  (fun m => (tid, m)) <$> ms.


(** The log after a command that succeeded and was drained. *)
Definition after_success : state :=
  run init [Execute "true" None; Thread 0 PopenReturns;
            Thread 0 (ReadlineReturns ""); Thread 0 (WaitReturns 0); Tick].

(** The messages [update_output] has taken off the queue in the course
    of a run that starts in [w], oldest first: a tick takes all that wait. *)
Fixpoint dispatched (w : state) (s : list action) : list msg :=
  match s with
  | [] => []
  | a :: s' =>
      match a with
      | Tick => output_queue w
      | _ => []
      end ++ dispatched (step w a) s'
  end.

(** Where a thread standing at [l] stands after the reply [r]; [fresh]
    names the child a [Popen] that returns has made. *)
Definition next_pc (fresh : nat) (l : pc) (r : reply) : pc :=
  match l, r with
  | AtPopen, PopenReturns => AtReadline fresh
  | AtPopen, PopenRaises _ => Returned
  | AtReadline _, ReadlineReturns line => if String.eqb line "" then AtWait else l
  | AtReadline _, ReadlineRaises _ => Returned
  | AtWait, WaitReturns _ => Returned
  | AtWait, WaitRaises _ => Returned
  | _, _ => l
  end.

(** The replies [rs], given one after the other to a thread standing at
    [l], take it to the end of [run_in_thread]: its [Popen] raises, or
    the stream of its child ends or breaks and [wait()] comes back. *)
Fixpoint completes (l : pc) (rs : list reply) : bool :=
  match l with
  | Returned => true
  | _ =>
      match rs with
      | [] => false
      | r :: rs' => completes (next_pc 0 l r) rs'
      end
  end.

(** The value of a decimal digit. *)
Definition digit_value (c : Ascii.ascii) : option Z :=
  let n := Z.of_N (N_of_ascii c) in
  if ((48 <=? n) && (n <=? 57))%Z then Some (n - 48)%Z else None.

(** The number a run of decimal digits stands for, most significant
    digit first, when the digits before it gave [acc]. *)
Fixpoint digits_value (acc : Z) (s : string) : option Z :=
  match s with
  | EmptyString => Some acc
  | String c s' =>
      match digit_value c with
      | Some d => digits_value (10 * acc + d) s'
      | None => None
      end
  end.

(** The integer a decimal numeral stands for: one digit or more, with a
    minus sign in front for a negative number. *)
Definition int_value (s : string) : option Z :=
  match s with
  | EmptyString => None
  | String c s' =>
      if Ascii.eqb c "-"
      then (if String.eqb s' "" then None else Z.opp <$> digits_value 0 s')
      else digits_value 0 s
  end.

(** The numeral is written the way Python writes an [int]: no zero in
    front of another digit, no minus sign in front of a zero. *)
Definition canonical (s : string) : bool :=
  match s with
  | String c (String d _) =>
      negb (Ascii.eqb c "0") && negb (Ascii.eqb c "-" && Ascii.eqb d "0")
  | _ => true
  end.

(** The text [toPlainText()] gives back is the text inserted. *)
Definition qt_keeps (text : string) : Prop := qt_plain text = text.

(** A byte that starts none of the sequences Qt rewrites. *)
Definition ordinary (c : Ascii.ascii) : bool :=
  let n := N_of_ascii c in
  negb (n =? 13)%N && negb (n =? 194)%N && negb (n =? 226)%N && negb (n =? 239)%N.

(** ** Notions used for the drain step and the runs *)

(** What [update_output] writes in the log for a message: the text and
    the style of the [append_output] call of its branch. *)
Definition render (m : msg) : string * QTextCharFormat :=
  match m with
  | MOutput data => (data, format_of "output")
  | MFinished code => if (code =? 0)%Z then success_marker else failure_marker code
  | MError data => (nl +:+ "Error: " +:+ data +:+ nl, format_of "error")
  end.

(** The exit statuses of the [finished] events among [q], in order. *)
Definition codes (q : list msg) : list Z :=
  omap (fun m => match m with MFinished c => Some c | _ => None end) q.

(** Is there a [finished] event among [q]? *)
Definition has_finished (q : list msg) : bool := existsb is_finished q.

(** The fields of the widget a user sees or hears of. *)
Definition ui (w : state) :=
  (current_process w, status_label w, stop_btn w, output w, emitted w).

(** The same without [current_process]. *)
Definition ui_but_process (w : state) :=
  (status_label w, stop_btn w, output w, emitted w).

(** The action is a timer tick or a step of a thread. *)
Definition tick_or_thread (a : action) : bool :=
  match a with Tick | Thread _ _ => true | _ => false end.

(** The action is a step of a thread. *)
Definition thread_step (a : action) : bool :=
  match a with Thread _ _ => true | _ => false end.

(** [current_process] and the targets of [terminate()] are children that
    were spawned. *)
Definition handles_valid (w : state) : Prop :=
  (forall p, current_process w = Some p -> p < length (children w))
  /\ Forall (fun p => p < length (children w)) (terminated w).

(** The thread is past its [Popen] call. *)
Definition called_popen (th : thread) : bool :=
  match at_pc th with AtPopen => false | _ => true end.

(** The threads that are past their [Popen] call. *)
Definition past_popen (ths : list thread) : list thread :=
  filter (fun th => called_popen th = true) ths.

(** ** The forms and their callbacks (gui/tool_cards.py, gui/main_window.py) *)

(** The values [get_field_values] collects: the text of a line edit,
    combo box or file selector, the value of a spin box, the state of a
    check box. *)
Inductive value :=
| VStr (s : string)
| VInt (n : Z)
| VBool (b : bool).

(** Truth value of a form value. *)
Definition value_truthy (v : value) : bool :=
  match v with
  | VStr s => truthy s
  | VInt n => negb (n =? 0)%Z
  | VBool b => b
  end.

(** [bool(d.get(k))]: a missing key gives [None], which is false. *)
Definition get_truthy (d : gmap string value) (k : string) : bool :=
  from_option value_truthy false (d !! k).

(** The exceptions the callbacks can raise. *)
Inductive pyerr :=
| KeyError (k : string)
| AttributeError
| IndexError
| TypeError.

(** Computations that return or raise. *)
Definition raise {A} (e : pyerr) : pyerr + A := inl e.
Definition bind {A B} (m : pyerr + A) (k : A -> pyerr + B) : pyerr + B :=
  match m with
  | inl e => inl e
  | inr a => k a
  end.

#[local] Instance pyerr_bind : MBind (sum pyerr) := fun A B k m => bind m k.

(** [d[k]]. *)
Definition subscript (d : gmap string value) (k : string) : pyerr + value :=
  match d !! k with
  | Some v => inr v
  | None => raise (KeyError k)
  end.

(** The dictionary [scan_types] of [run_nmap]. *)
Definition scan_types : gmap string string :=
  list_to_map
    [ ("Quick Scan (-F)", "-F");
      ("Intense Scan (-A)", "-A");
      ("Intense Scan + UDP (-sS -sU -A)", "-sS -sU -A");
      ("Quick Scan Plus (-sV -T4 -O -F --version-light)", "-sV -T4 -O -F --version-light");
      ("Ping Scan (-sn)", "-sn");
      ("Regular Scan", "") ].

(** [scan_types.get(v, '')]: none of the keys is an [int] or a [bool]. *)
Definition scan_flag (v : value) : string :=
  match v with
  | VStr s => default "" (scan_types !! s)
  | _ => ""
  end.

(** [s.replace(a, b)] for one-character [a] and [b]. *)
Fixpoint replace_char (a b : Ascii.ascii) (s : string) : string :=
  match s with
  | EmptyString => EmptyString
  | String c s' =>
      String (if Ascii.eqb c a then b else c) (replace_char a b s')
  end.

(** The file name [f'nmap_{target.replace("/", "_")}.xml']. *)
Definition xml_name (target : string) : string :=
  "nmap_" +:+ replace_char "/" "_" target +:+ ".xml".

(** The items of a list that [' '.join] accepts: [str] only. *)
Fixpoint str_items (l : list value) : pyerr + list string :=
  match l with
  | [] => inr []
  | VStr s :: l' => ss ← str_items l'; inr (s :: ss)
  | _ :: _ => raise TypeError
  end.

(** [' '.join(filter(None, cmd))]. *)
Definition join_truthy (cmd : list value) : pyerr + string :=
  ss ← str_items (filter (fun v => value_truthy v = true) cmd);
  inr (String.concat " " ss).

(** [ScanningPage.run_nmap(params)], acting on the terminal [w].
    [split] and [lower] are Python's [str.split()] and [str.lower()]. *)
Definition run_nmap (split : string -> list string) (lower : string -> string)
    (params : gmap string value) (w : state) : pyerr + state :=
  target ← subscript params "target";
  scan_type ← subscript params "scan_type";
  let cmd := [VStr "nmap"; VStr (scan_flag scan_type)] in
  cmd ← (if get_truthy params "ports"
          then ports ← subscript params "ports";
               inr (cmd ++ [VStr "-p"; ports])
          else inr cmd);
  cmd ← (if get_truthy params "timing"
          then timing ← subscript params "timing";
               match timing with
               | VStr t =>
                   match split t with
                   | first :: _ => inr (cmd ++ [VStr ("-" +:+ lower first)])
                   | [] => raise IndexError
                   end
               | _ => raise AttributeError
               end
          else inr cmd);
  let cmd := cmd ++ [target] in
  cmd ← (if get_truthy params "save_output"
          then match target with
               | VStr t => inr (cmd ++ [VStr "-oX"; VStr (xml_name t)])
               | _ => raise AttributeError
               end
          else inr cmd);
  line ← join_truthy cmd;
  inr (execute_command line None w).

(** [CyberGuardMainWindow.update_kali_tools()]. *)
Definition update_kali_tools (w : state) : state :=
  execute_command "sudo apt update && sudo apt upgrade -y" None w.

(** An entry of [fields_config], with the keys [execute_tool] reads; a
    missing ['required'] counts as false. *)
Record field := mkField {
  field_name : string;
  field_label : string;
  field_required : bool
}.

(** The first field that is required and has no true value: the loop of
    [execute_tool] stops at it. *)
Fixpoint first_missing (fields_config : list field) (values : gmap string value)
    : option field :=
  match fields_config with
  | [] => None
  | f :: fs =>
      if field_required f && negb (get_truthy values (field_name f)) then Some f
      else first_missing fs values
  end.

(** The tools [execute_tool] asks about before it runs them. *)
Definition dangerous : list string := ["Aircrack-ng"; "SQLMap"; "Metasploit Console"].

(** How a call of [execute_tool] ends. *)
Inductive tool_outcome :=
| Warned (label : string)               (* the "Validation Error" box, then return *)
| Declined                              (* the answer to "Confirm Execution" was not Yes *)
| Ran (values : gmap string value).     (* run_callback(values) *)

(** [ToolWidget.execute_tool()], given what [get_field_values] returned
    and whether the user answers Yes when asked. *)
Definition execute_tool (name : string) (fields_config : list field)
    (values : gmap string value) (yes : bool) : tool_outcome :=
  match first_missing fields_config values with
  | Some f => Warned (field_label f)
  | None =>
      if bool_decide (name ∈ dangerous)
      then (if yes then Ran values else Declined)
      else Ran values
  end.

(** [TerminalWidget.run_quick_command()], on the widget and the text of
    the input bar.  [strip] is Python's [str.strip()]. *)
Definition run_quick_command (strip : string -> string)
    (w : state) (quick_cmd : string) : state * string :=
  let cmd := strip quick_cmd in
  if truthy cmd then (execute_command cmd None w, "")
  else (w, quick_cmd).

(** The words of the command [run_nmap] builds from the values of the
    form, before the empty ones are filtered out. *)
Definition nmap_words (lower : string -> string) (target scan_type ports word : string)
    (save : bool) : list string :=
  ["nmap"; scan_flag (VStr scan_type)]
  ++ (if truthy ports then ["-p"; ports] else [])
  ++ ["-" +:+ lower word; target]
  ++ (if save then ["-oX"; xml_name target] else []).

(** A field passes the check of [execute_tool]: it is not required, or
    its value is true. *)
Definition filled (values : gmap string value) (f : field) : Prop :=
  field_required f = true -> get_truthy values (field_name f) = true.

(** ** tools/base_tool.py *)

(** What [validate_parameters] asks of a value of the parameter
    dictionary: its truth value and its [str()]. *)
Class PyValue (V : Type) := {
  py_truthy : V -> bool;
  py_str : V -> string
}.

#[global] Instance value_PyValue : PyValue value := {|
  py_truthy := value_truthy;
  py_str := fun v =>
    match v with
    | VStr s => s
    | VInt n => str_int n
    | VBool b => if b then "True" else "False"
    end
|}.

(** A [ToolParameter], with the attributes [validate_parameters] reads.
    [validation_regex] is [None] by default. *)
Record ToolParameter := mkToolParameter {
  tp_name : string;
  tp_label : string;
  tp_required : bool;
  tp_validation_regex : option string
}.

(** The two messages of [validate_parameters]. *)
Definition missing_message (param : ToolParameter) : string :=
  "Required parameter '" +:+ tp_label param +:+ "' is missing".
Definition invalid_message (param : ToolParameter) : string :=
  "Invalid format for '" +:+ tp_label param +:+ "'".

(** [value and param.validation_regex]: is there a pattern to check the
    value against?  It gives the pattern and [str(value)]. *)
Definition to_check {V} `{PyValue V} (param : ToolParameter) (value : option V)
    : option (string * string) :=
  match value, tp_validation_regex param with
  | Some v, Some regex =>
      if py_truthy v && truthy regex then Some (regex, py_str v) else None
  | _, _ => None
  end.

(** [validate_parameters(params)] over the list [self.parameters].
    [re_match regex text] is [re.match(regex, text)]: [Some true] for a
    match object, [Some false] for [None], and [None] when [re] raises on
    the pattern; then the result is [None], the exception going through. *)
Fixpoint validate_parameters {V} `{PyValue V}
    (re_match : string -> string -> option bool)
    (parameters : list ToolParameter) (params : gmap string V)
    : option (bool * string) :=
  match parameters with
  | [] => Some (true, "")
  | param :: rest =>
      let value := params !! tp_name param in
      if tp_required param && negb (from_option py_truthy false value)
      then Some (false, missing_message param)
      else
        match to_check param value with
        | Some (regex, text) =>
            match re_match regex text with
            | None => None
            | Some false => Some (false, invalid_message param)
            | Some true => validate_parameters re_match rest params
            end
        | None => validate_parameters re_match rest params
        end
  end.

(** A [ToolResult]; [output_files] (never set) and [execution_time] (a
    float) are left out.  [parsed_output] holds what [parse_output]
    returned, [None] included, and [None] when it was not set. *)
Record ToolResult (P : Type) := mkToolResult {
  success : bool;
  return_code : Z;
  stdout : string;
  stderr : string;
  parsed_output : option P
}.
Arguments mkToolResult {P}.
Arguments success {P}.
Arguments return_code {P}.
Arguments stdout {P}.
Arguments stderr {P}.
Arguments parsed_output {P}.

(** What a call comes back with: a value, or an exception ([str(e)]). *)
Inductive io (A : Type) :=
| Ok (a : A)
| Raise (e : string).
Arguments Ok {A}.
Arguments Raise {A}.

(** A [BaseSecurityTool]: the attributes [execute] reads and the two
    abstract methods.  [parse_output] returns a value of [P] or [None],
    as a Python method can. *)
Record BaseSecurityTool (V P : Type) := mkTool {
  requires_root : bool;
  parameters : list ToolParameter;
  build_command : gmap string V -> io (list string);
  parse_output : string -> string -> io (option P)
}.
Arguments mkTool {V P}.
Arguments requires_root {V P}.
Arguments parameters {V P}.
Arguments build_command {V P}.
Arguments parse_output {V P}.

(** One turn of the [while True] loop of [execute], as the child lets it
    go: the two [readline()] calls and [process.poll()] ([None] while the
    child runs). *)
Record turn := mkTurn {
  stdout_line : io string;
  stderr_line : io string;
  poll : option Z
}.

(** The world of one [execute] call. *)
Record host := mkHost {
  geteuid : Z;                  (* os.geteuid() *)
  popen : io unit;              (* subprocess.Popen(cmd, ...) *)
  turns : list turn
}.

(** What the loop has gathered: [stdout_lines], [stderr_lines] and the
    calls of [output_callback], oldest first. *)
Record gathered := mkGathered {
  stdout_lines : list string;
  stderr_lines : list string;
  callback_calls : list string
}.

(** How the loop ends: [break] with the exit status, an exception, or
    not within the turns given. *)
Inductive loop_end :=
| Break (returncode : Z)
| Raised (e : string)
| StillRunning.

(** [output_callback(text)], when a callback was passed.  The callback
    is taken to return. *)
Definition call (has_callback : bool) (text : string) (g : gathered) : gathered :=
  if has_callback
  then mkGathered (stdout_lines g) (stderr_lines g) (callback_calls g ++ [text])
  else g.

(** The body of the loop for the lines read. *)
Definition gather (has_callback : bool) (out err : string) (g : gathered) : gathered :=
  let g :=
    if truthy out
    then call has_callback out
           (mkGathered (stdout_lines g ++ [out]) (stderr_lines g) (callback_calls g))
    else g in
  if truthy err
  then call has_callback ("[stderr] " +:+ err)
         (mkGathered (stdout_lines g) (stderr_lines g ++ [err]) (callback_calls g))
  else g.

(** The [while True] loop. *)
Fixpoint stream (has_callback : bool) (ts : list turn) (g : gathered)
    : loop_end * gathered :=
  match ts with
  | [] => (StillRunning, g)
  | t :: ts' =>
      match stdout_line t with
      | Raise e => (Raised e, g)
      | Ok out =>
          match stderr_line t with
          | Raise e => (Raised e, g)
          | Ok err =>
              let g := gather has_callback out err g in
              match poll t with
              | Some returncode =>
                  if negb (truthy out) && negb (truthy err)
                  then (Break returncode, g)
                  else stream has_callback ts' g
              | None => stream has_callback ts' g
              end
          end
      end
  end.

(** How a call of [execute] ends. *)
Inductive executed (P : Type) :=
| Returns (r : ToolResult P)
| Propagates                    (* an exception outside the try block *)
| Hangs.                        (* the loop does not end within the turns given *)
Arguments Returns {P}.
Arguments Propagates {P}.
Arguments Hangs {P}.

(** The result [execute] builds in its [except] clause and for invalid
    parameters. *)
Definition failure {P} (message : string) : ToolResult P :=
  mkToolResult false (-1) "" message None.

(** [execute(params, output_callback)]: the outcome, the command handed
    to [Popen] (if it got that far) and the calls of the callback. *)
Definition execute {V P} `{PyValue V} (tool : BaseSecurityTool V P)
    (re_match : string -> string -> option bool) (h : host)
    (params : gmap string V) (has_callback : bool)
    : executed P * option (list string) * list string :=
  match validate_parameters re_match (parameters tool) params with
  | None => (Propagates, None, [])
  | Some (false, error) => (Returns (failure error), None, [])
  | Some (true, _) =>
      match build_command tool params with
      | Raise _ => (Propagates, None, [])
      | Ok cmd =>
          let cmd :=
            if requires_root tool && negb (geteuid h =? 0)%Z
            then "sudo" :: cmd else cmd in
          match popen h with
          | Raise e => (Returns (failure e), Some cmd, [])
          | Ok _ =>
              match stream has_callback (turns h) (mkGathered [] [] []) with
              | (Raised e, g) => (Returns (failure e), Some cmd, callback_calls g)
              | (StillRunning, g) => (Hangs, Some cmd, callback_calls g)
              | (Break returncode, g) =>
                  let out := String.concat "" (stdout_lines g) in
                  let err := String.concat "" (stderr_lines g) in
                  match parse_output tool out err with
                  | Raise e => (Returns (failure e), Some cmd, callback_calls g)
                  | Ok parsed =>
                      (Returns (mkToolResult (returncode =? 0)%Z returncode out err
                                  parsed),
                       Some cmd, callback_calls g)
                  end
              end
          end
      end
  end.

(** A parameter passes [validate_parameters]: if required it has a true
    value, and if there is a pattern to check its value against, the
    value matches. *)
Definition accepts {V} `{PyValue V} (re_match : string -> string -> option bool)
    (params : gmap string V) (param : ToolParameter) : Prop :=
  (tp_required param = true ->
   from_option py_truthy false (params !! tp_name param) = true)
  /\ (forall regex text,
        to_check param (params !! tp_name param) = Some (regex, text) ->
        re_match regex text = Some true).

(** A turn in which both reads succeed. *)
Definition read_turn (t : string * string * option Z) : turn :=
  mkTurn (Ok t.1.1) (Ok t.1.2) t.2.

(** After such a turn the loop goes on: the child still runs, or a line
    was read. *)
Definition goes_on (t : string * string * option Z) : bool :=
  match t.2 with
  | None => true
  | Some _ => truthy t.1.1 || truthy t.1.2
  end.

(** The turn on which the loop breaks: nothing left to read, and the
    child has exited with [rc]. *)
Definition last_turn (rc : Z) : turn := mkTurn (Ok "") (Ok "") (Some rc).

(** The calls of the callback for the lines of a turn. *)
Definition calls_for (t : string * string * option Z) : list string :=
  (if truthy t.1.1 then [t.1.1] else [])
  ++ (if truthy t.1.2 then ["[stderr] " +:+ t.1.2] else []).

(** The command [execute] hands to [Popen] for the built command [cmd]. *)
Definition with_sudo {V P} (tool : BaseSecurityTool V P) (h : host)
    (cmd : list string) : list string :=
  if requires_root tool && negb (geteuid h =? 0)%Z then "sudo" :: cmd else cmd.

(** A tool for the examples: one required parameter with a pattern. *)
Definition sample_tool : BaseSecurityTool value (list string) :=
  mkTool true [mkToolParameter "host" "Host" true (Some "[a-z.]+$")]
    (fun params =>
       match params !! "host" with
       | Some v => Ok ["ping"; "-c"; "1"; py_str v]
       | None => Raise "'host'"
       end)
    (fun out err => Ok (Some [out; err])).

(** ** Sample runs *)

Example init_plain : toPlainText init = "".
Proof. reflexivity. Qed.

Example str_int_neg : str_int (-15) = "-15".
Proof. reflexivity. Qed.

Example str_int_zero : str_int 0 = "0".
Proof. reflexivity. Qed.

Example colors_warning : colors "warning" = "#d29922".
Proof. vm_compute. reflexivity. Qed.

Example int_value_samples :
  int_value "-15" = Some (-15)%Z /\ int_value "0" = Some 0%Z
  /\ int_value "" = None /\ int_value "-" = None /\ int_value "1a" = None
  /\ canonical "-15" = true /\ canonical "007" = false /\ canonical "-0" = false.
Proof. repeat split. Qed.

(** A line with a no-break space (C2 A0) reads back with a space, and a
    carriage return reads back as a line feed, once for [\r\n]. *)
Example toPlainText_rewrites :
  let nbsp := String (ascii_of_nat 194) (String (ascii_of_nat 160) "") in
  let cr := String (ascii_of_nat 13) "" in
  toPlainText (update_output (set_output_queue [MOutput ("A" +:+ nbsp +:+ "B" +:+ nl)] init))
  = "A B" +:+ nl
  /\ qt_plain ("a" +:+ cr +:+ nl +:+ "b" +:+ cr +:+ "c") = "a" +:+ nl +:+ "b" +:+ nl +:+ "c"
  /\ qt_plain ("$ ls" +:+ nl +:+ "✓ ✗ ⚠" +:+ nl) = "$ ls" +:+ nl +:+ "✓ ✗ ⚠" +:+ nl.
Proof. vm_compute. repeat split. Qed.

Example run_two_lines :
  let w := run init [Execute "printf 'a\nb\n'" None; Thread 0 PopenReturns;
                     Thread 0 (ReadlineReturns ("a" +:+ nl)); Stop;
                     Thread 0 (ReadlineReturns ("b" +:+ nl));
                     Thread 0 (ReadlineReturns ""); Thread 0 (WaitReturns 0); Tick] in
  puts_of 0 w = [MOutput ("a" +:+ nl); MOutput ("b" +:+ nl); MFinished 0]
  /\ status_label w = idle_label /\ current_process w = None
  /\ terminated w = [0%nat].
Proof. vm_compute. repeat split. Qed.

(** ** Frame facts about the slots *)

Lemma append_cons (c : Ascii.ascii) (s t : string) :
  String c s +:+ t = String c (s +:+ t).
Proof. reflexivity. Qed.

Lemma append_nil_r (s : string) : s +:+ "" = s.
Proof.
  induction s as [|c s IH]; [reflexivity | by rewrite append_cons, IH].
Qed.

Lemma append_assoc (s t u : string) : (s +:+ t) +:+ u = s +:+ (t +:+ u).
Proof.
  induction s as [|c s IH]; [reflexivity | by rewrite !append_cons, IH].
Qed.

Lemma plain_text_app (doc doc' : list (string * QTextCharFormat)) :
  plain_text (doc ++ doc') = plain_text doc +:+ plain_text doc'.
Proof.
  unfold plain_text. induction doc as [|r l IH]; simpl; [done|].
  by rewrite IH, append_assoc.
Qed.

Lemma plain_text_snoc (doc : list (string * QTextCharFormat)) r :
  plain_text (doc ++ [r]) = plain_text doc +:+ qt_plain r.1.
Proof.
  rewrite plain_text_app. unfold plain_text at 2. simpl. by rewrite append_nil_r.
Qed.

Lemma toPlainText_append_output (text style : string) (w : state) :
  toPlainText (append_output text style w) = toPlainText w +:+ qt_plain text.
Proof. apply plain_text_snoc. Qed.

(** A log in which Qt rewrites nothing reads as the texts inserted, one
    after the other. *)
Lemma plain_text_keeps (doc : list (string * QTextCharFormat)) :
  Forall (fun r => qt_keeps r.1) doc ->
  plain_text doc = foldr (fun r acc => r.1 +:+ acc) "" doc.
Proof.
  unfold plain_text. induction 1 as [|r l Hr _ IH]; simpl; [done|].
  by rewrite IH, Hr.
Qed.

(** ** Texts that Qt gives back as they are *)

Lemma qt_plain_ordinary (c : Ascii.ascii) (s : string) :
  ordinary c = true -> qt_plain (String c s) = String c (qt_plain s).
Proof.
  unfold ordinary. intros H. cbn [qt_plain].
  destruct (N_of_ascii c =? 13)%N; [done|].
  destruct (N_of_ascii c =? 194)%N; [done|].
  destruct (N_of_ascii c =? 226)%N; [done|].
  destruct (N_of_ascii c =? 239)%N; done.
Qed.

Lemma qt_plain_ordinary_app (s t : string) :
  Forall (fun c => ordinary c = true) (list_ascii_of_string s) ->
  qt_plain (s +:+ t) = s +:+ qt_plain t.
Proof.
  induction s as [|c s IH]; [done|]. simpl list_ascii_of_string.
  intros H. inversion H as [|? ? Hc Hs]; subst.
  by rewrite !append_cons, qt_plain_ordinary, IH.
Qed.

(** The digits of a numeral of the Standard Library, read back. *)
Lemma digits_value_acc (d : Decimal.uint) (acc : positive) :
  digits_value (Z.pos acc) (NilEmpty.string_of_uint d)
  = Some (Z.pos (Pos.of_uint_acc d acc)).
Proof.
  revert acc. induction d as [|d IH|d IH|d IH|d IH|d IH|d IH|d IH|d IH|d IH|d IH];
    intros acc; [done|..];
    cbn [NilEmpty.string_of_uint digits_value Pos.of_uint_acc];
    match goal with
    | |- context [digit_value ?c] =>
        let v := eval vm_compute in (digit_value c) in
        change (digit_value c) with v
    end; cbv iota; rewrite <- IH; f_equal; lia.
Qed.

Lemma digits_value_uint (d : Decimal.uint) :
  digits_value 0 (NilEmpty.string_of_uint d) = Some (Z.of_N (Pos.of_uint d)).
Proof.
  induction d as [|d IH|d IH|d IH|d IH|d IH|d IH|d IH|d IH|d IH|d IH];
    [done|exact IH|..];
    cbn [NilEmpty.string_of_uint digits_value Pos.of_uint];
    match goal with
    | |- context [digit_value ?c] =>
        let v := eval vm_compute in (digit_value c) in
        change (digit_value c) with v
    end; cbv iota; apply (digits_value_acc d).
Qed.

Lemma digits_ordinary (d : Decimal.uint) :
  Forall (fun c => ordinary c = true)
         (list_ascii_of_string (NilEmpty.string_of_uint d)).
Proof.
  induction d; simpl; constructor; done.
Qed.

(** A numeral of a positive number starts with a digit that is not 0. *)
Lemma to_uint_leading (p : positive) (l : Decimal.uint) :
  Pos.to_uint p <> Decimal.D0 l.
Proof.
  intros H.
  assert (Hn : Decimal.unorm (Pos.to_uint p) = Pos.to_uint p).
  { rewrite <- (Unsigned.to_of (Pos.to_uint p)), Unsigned.of_to. reflexivity. }
  rewrite H in Hn. unfold Decimal.unorm in Hn.
  destruct (Decimal.nzhead (Decimal.D0 l)) as [|u|u|u|u|u|u|u|u|u|u] eqn:E;
    [|by apply nzhead_nonzero in E|discriminate..].
  injection Hn as <-. by apply (Unsigned.to_uint_nonzero p).
Qed.

Lemma uint_numeral (p : positive) :
  let s := NilEmpty.string_of_uint (Pos.to_uint p) in
  NilZero.string_of_uint (Pos.to_uint p) = s
  /\ digits_value 0 s = Some (Z.pos p)
  /\ exists c s', s = String c s' /\ Ascii.eqb c "-" = false
                  /\ Ascii.eqb c "0" = false.
Proof.
  intros s. subst s. split; [|split].
  - destruct (Pos.to_uint p) eqn:E; try done. by apply Unsigned.to_uint_nonnil in E.
  - by rewrite digits_value_uint, Unsigned.of_to.
  - destruct (Pos.to_uint p) eqn:E;
      [by apply Unsigned.to_uint_nonnil in E | by apply to_uint_leading in E|..];
      eexists _, _; (split; [reflexivity|done]).
Qed.

(** [str(n)] is the decimal numeral of [n], written as Python writes it. *)
Lemma str_int_numeral (n : Z) :
  int_value (str_int n) = Some n /\ canonical (str_int n) = true.
Proof.
  destruct n as [|p|p]; [done|..];
    destruct (uint_numeral p) as (Hs & Hv & c & s' & Hc & Hminus & Hzero);
    unfold str_int; cbn [Z.to_int NilZero.string_of_int]; rewrite Hs.
  - rewrite Hc in Hv |- *. unfold int_value, canonical. rewrite Hminus, Hv, Hzero.
    split; [done|]. by destruct s'.
  - unfold int_value, canonical. cbn [Ascii.eqb Bool.eqb].
    rewrite Hv, Hc. rewrite Hzero. simpl. done.
Qed.

Lemma str_int_ordinary (n : Z) :
  Forall (fun c => ordinary c = true) (list_ascii_of_string (str_int n)).
Proof.
  destruct n as [|p|p]; [repeat constructor|..];
    destruct (uint_numeral p) as (Hs & _);
    unfold str_int; cbn [Z.to_int NilZero.string_of_int]; rewrite Hs.
  - apply digits_ordinary.
  - simpl. constructor; [done|apply digits_ordinary].
Qed.

(** Qt gives both markers back as they are. *)
Lemma qt_plain_failure (numeral : string) :
  Forall (fun c => ordinary c = true) (list_ascii_of_string numeral) ->
  qt_keeps (nl +:+ "✗ Command failed (exit code " +:+ numeral +:+ ")" +:+ nl).
Proof.
  intros H. unfold qt_keeps.
  change (nl +:+ "✗ Command failed (exit code " +:+ numeral +:+ ")" +:+ nl)
    with ((nl +:+ "✗ Command failed (exit code ") +:+ (numeral +:+ (")" +:+ nl))).
  assert (Hhead : forall t, qt_plain ((nl +:+ "✗ Command failed (exit code ") +:+ t)
                            = (nl +:+ "✗ Command failed (exit code ") +:+ qt_plain t)
    by reflexivity.
  by rewrite Hhead, qt_plain_ordinary_app.
Qed.

Lemma qt_plain_success :
  qt_keeps (nl +:+ "✓ Command completed successfully" +:+ nl).
Proof. reflexivity. Qed.

Lemma dispatch_frame (m : msg) (w : state) :
  output_queue (dispatch m w) = output_queue w
  /\ threads (dispatch m w) = threads w
  /\ puts (dispatch m w) = puts w
  /\ children (dispatch m w) = children w
  /\ terminated (dispatch m w) = terminated w.
Proof.
  destruct m as [l|c|e]; simpl; try done.
  unfold on_command_finished. destruct (c =? 0)%Z; done.
Qed.

Lemma drain_frame (q : list msg) (w : state) :
  output_queue (drain q w) = []
  /\ threads (drain q w) = threads w
  /\ puts (drain q w) = puts w
  /\ children (drain q w) = children w
  /\ terminated (drain q w) = terminated w.
Proof.
  revert w. induction q as [|m q IH]; intros w; simpl; [done|].
  destruct (IH (dispatch m (set_output_queue q w))) as (-> & -> & -> & -> & ->).
  destruct (dispatch_frame m (set_output_queue q w)) as (_ & -> & -> & -> & ->).
  done.
Qed.

(** After a drain the queue is empty, so a second drain changes nothing. *)
Lemma update_output_twice (w : state) :
  update_output (update_output w) = update_output w.
Proof.
  unfold update_output at 1.
  destruct (drain_frame (output_queue w) w) as (Hq & _).
  fold (update_output w) in Hq. rewrite Hq. simpl.
  destruct (update_output w); simpl in *; subst; reflexivity.
Qed.

(** ** The drain step *)

(** C9: [update_output] on an empty queue leaves the whole state as it
    is: status, log and every other field.  The function is total, it
    never waits for a message. *)
Theorem update_output_empty_queue (w : state) :
  output_queue w = [] -> update_output w = w.
Proof.
  intros Hq. unfold update_output. rewrite Hq. simpl.
  destruct w; simpl in *; subst; reflexivity.
Qed.

Lemma update_output_empty_queue_witness :
  output_queue init = [] /\ update_output init = init.
Proof.
  split; [reflexivity | apply (update_output_empty_queue init); reflexivity].
Defined.

(** C4: draining [('finished', code)] sets the status to idle, disables
    the stop button, clears [current_process], appends the success marker
    when [code] is 0 and otherwise the failure marker, whose text holds
    the decimal numeral of [code], and emits [command_finished] with
    [code] and the whole text of the log as [toPlainText()] gives it,
    marker included. *)
Theorem dispatch_finished (code : Z) (q : list msg) (w : state) :
  let w' := dispatch (MFinished code) w in
  update_output (set_output_queue (MFinished code :: q) w)
    = drain q (dispatch (MFinished code) (set_output_queue q w))
  /\ status_label w' = idle_label
  /\ stop_btn w' = false
  /\ current_process w' = None
  /\ exists marker : string,
       (if (code =? 0)%Z
        then marker = nl +:+ "✓ Command completed successfully" +:+ nl
        else exists numeral,
               marker = nl +:+ "✗ Command failed (exit code " +:+ numeral +:+ ")" +:+ nl
               /\ int_value numeral = Some code
               /\ canonical numeral = true)
       /\ output w'
          = output w
            ++ [(marker,
                 mkFormat (colors (if (code =? 0)%Z then "success" else "danger")) false)]
       /\ toPlainText w' = toPlainText w +:+ marker
       /\ emitted w' = emitted w ++ [(code, toPlainText w +:+ marker)].
Proof.
  intros w'. split; [reflexivity|].
  subst w'. unfold dispatch, on_command_finished, toPlainText.
  destruct (code =? 0)%Z; simpl; (do 3 (split; [done|])).
  - exists (nl +:+ "✓ Command completed successfully" +:+ nl).
    rewrite plain_text_snoc. simpl fst. rewrite qt_plain_success. done.
  - exists (nl +:+ "✗ Command failed (exit code " +:+ str_int code +:+ ")" +:+ nl).
    destruct (str_int_numeral code) as [Hv Hc].
    rewrite plain_text_snoc. simpl fst.
    rewrite (qt_plain_failure (str_int code) (str_int_ordinary code)).
    split; [by exists (str_int code)|done].
Qed.

(** A drained [('error', e)] only adds a line to the log. *)
Lemma dispatch_error_frame (e : string) (w : state) :
  dispatch (MError e) w
  = set_output (output w ++ [(nl +:+ "Error: " +:+ e +:+ nl, mkFormat (colors "danger") false)]) w.
Proof. reflexivity. Qed.

(** C3: after the error event of a failed spawn has been drained the
    status label still reads "Running" and the stop button is still
    enabled; the [finished] branch is the only one that resets them. *)
Theorem update_output_error_stays_running :
  let w := run init spawn_failure in
  output_queue w = []
  /\ puts_of 0 w = [MError "[Errno 2] No such file or directory: '/nonexistent'"]
  /\ status_label w = running_label
  /\ status_label w <> idle_label
  /\ stop_btn w = true.
Proof. vm_compute. repeat split; discriminate. Qed.

(** ** Stopping *)

(** C10: with no active process ([current_process] is [None])
    [stop_command] changes nothing: no [terminate()], no line in the
    log, no other field. *)
Theorem stop_command_inactive (w : state) :
  current_process w = None -> stop_command w = w.
Proof. intros H. unfold stop_command. by rewrite H. Qed.

(** [current_process] is [None] before any start and after a drained
    [finished] event. *)
Lemma current_process_init : current_process init = None.
Proof. reflexivity. Qed.

Lemma current_process_finished (code : Z) (w : state) :
  current_process (on_command_finished code w) = None.
Proof. unfold on_command_finished. by destruct (code =? 0)%Z. Qed.

Lemma stop_command_inactive_witness :
  current_process init = None
  /\ stop_command init = init
  /\ current_process (on_command_finished 1 init) = None
  /\ stop_command (on_command_finished 1 init) = on_command_finished 1 init.
Proof.
  split; [reflexivity|]. split.
  - apply (stop_command_inactive init). reflexivity.
  - split; [reflexivity|].
    apply (stop_command_inactive (on_command_finished 1 init)). reflexivity.
Defined.

(** C6: [stop_command] with a process active calls [terminate()] once,
    leaves status, queue and [current_process] alone and appends the
    notice; but ['warning'] is not among the styles [append_output]
    knows, so the notice gets the plain-text colour, not the warning
    colour. *)
Theorem stop_command_notice_is_plain :
  let w := stop_command one_running in
  current_process one_running = Some 0%nat
  /\ terminated w = [0%nat]
  /\ status_label w = status_label one_running
  /\ output_queue w = output_queue one_running
  /\ puts w = puts one_running
  /\ current_process w = Some 0%nat
  /\ output w = output one_running
       ++ [(nl +:+ "⚠ Command terminated by user" +:+ nl,
            mkFormat (colors "text_primary") false)]
  /\ format_of "warning" = format_of "output"
  /\ foreground (format_of "warning") <> colors "warning".
Proof. vm_compute. repeat split; discriminate. Qed.

(** What [stop_command] does with a process active, in general. *)
Lemma stop_command_active (w : state) (p : nat) :
  current_process w = Some p ->
  stop_command w
  = append_output (nl +:+ "⚠ Command terminated by user" +:+ nl) "warning"
      (set_terminated (terminated w ++ [p]) w).
Proof. intros H. unfold stop_command. by rewrite H. Qed.

(** ** Starting while a command runs *)

(** C1, as the claim has it, fails: a second [execute_command] while a
    child runs signals no error event, its thread spawns a second child,
    and [current_process] then names the second child.  The first
    invocation suffers from it: when the second command is over and its
    [finished] event has been drained, [current_process] is [None], and
    the first thread, reaching [wait()], puts an error event in place of
    its [finished] event. *)
Lemma execute_command_active_counterexample :
  let w1 := execute_command "id" None one_running in
  let w2 := run_in_thread 1 PopenReturns w1 in
  let w3 := run w2 [Thread 1 (ReadlineReturns ""); Thread 1 (WaitReturns 0); Tick;
                    Thread 0 (ReadlineReturns ""); Thread 0 (WaitReturns 0)] in
  current_process one_running = Some 0%nat
  /\ output_queue w1 = [] /\ puts w1 = []
  /\ output_queue w2 = [] /\ puts w2 = []
  /\ length (threads w1) = 2%nat
  /\ children w2 = [("sleep 100", None); ("id", None)]
  /\ current_process w2 = Some 1%nat
  /\ puts_of 0 w3 = [MError AttributeError_wait].
Proof. vm_compute. repeat split. Qed.

(** C1, amended: [execute_command] does not look at [current_process].
    Called while a child runs it puts nothing on the queue, echoes the
    command, shows "Running", enables the stop button and starts one more
    thread; once that thread's [Popen] returns there is one more child
    and [current_process] names it instead of the running one. *)
Theorem execute_command_active (w : state) (p : nat)
    (command : string) (working_dir : option string) :
  current_process w = Some p ->
  p < length (children w) ->
  let w1 := execute_command command working_dir w in
  let w2 := run_in_thread (length (threads w)) PopenReturns w1 in
  output_queue w1 = output_queue w
  /\ puts w1 = puts w
  /\ current_process w1 = Some p
  /\ output w1 = output w ++ [(nl +:+ "$ " +:+ command +:+ nl, mkFormat (colors "accent") true)]
  /\ status_label w1 = running_label
  /\ stop_btn w1 = true
  /\ threads w1 = threads w ++ [mkThread command working_dir AtPopen]
  /\ output_queue w2 = output_queue w
  /\ puts w2 = puts w
  /\ children w2 = children w ++ [(command, working_dir)]
  /\ current_process w2 = Some (length (children w))
  /\ current_process w2 <> Some p.
Proof.
  intros Hp Hlt w1 w2.
  assert (Hth : threads w1 !! length (threads w)
                = Some (mkThread command working_dir AtPopen)).
  { subst w1. unfold execute_command; simpl.
    rewrite lookup_app_r by lia. by rewrite Nat.sub_diag. }
  subst w2. unfold run_in_thread. rewrite Hth. simpl.
  repeat split; try done.
  intros [= Heq]. lia.
Qed.

Lemma execute_command_active_witness :
  current_process one_running = Some 0%nat
  /\ 0 < length (children one_running)
  /\ current_process
       (run_in_thread 1 PopenReturns (execute_command "id" None one_running))
     = Some 1%nat.
Proof.
  split; [reflexivity|]. split; [vm_compute; lia|].
  apply (execute_command_active one_running 0 "id" None);
    [reflexivity | vm_compute; lia].
Defined.

(** ** What a thread puts on the queue *)

Lemma alter_with_pc (ths : list thread) (tid : nat) (th : thread) (l : pc) :
  ths !! tid = Some th ->
  alter (fun th => mkThread (command th) (working_dir th) l) tid ths
  = <[tid := with_pc l th]> ths.
Proof.
  intros H. apply list_eq. intros i.
  destruct (decide (tid = i)) as [<-|Hne].
  - rewrite list_lookup_alter_eq, H. simpl.
    rewrite list_lookup_insert_eq; [done|]. by apply lookup_lt_is_Some.
  - by rewrite list_lookup_alter_ne, list_lookup_insert_ne.
Qed.

Lemma with_pc_same (th : thread) : with_pc (at_pc th) th = th.
Proof. by destruct th. Qed.

Lemma truthy_nonempty (line : string) : truthy line = true <-> line <> "".
Proof.
  unfold truthy. destruct (String.eqb_spec line "") as [->|Hne]; simpl.
  - split; [discriminate | congruence].
  - split; done.
Qed.

(** Closes a case of [run_in_thread_move]: the thread of [Hth] put [ms]
    and went to [l]. *)
Ltac moved ms l Hth :=
  exists ms, l; split;
  [ first [ apply move_spawn | apply move_eof
          | by apply move_line | by apply move_return ]
  | simpl; rewrite (alter_with_pc _ _ _ _ Hth); by rewrite ?app_nil_r ].

(** Every step of [run_in_thread] is one of the moves above, and touches
    the thread table and the put history only through it. *)
Lemma run_in_thread_move (tid : nat) (r : reply) (w : state) (th : thread) :
  threads w !! tid = Some th ->
  exists ms l,
    move (at_pc th) ms l
    /\ threads (run_in_thread tid r w) = <[tid := with_pc l th]> (threads w)
    /\ puts (run_in_thread tid r w) = puts w ++ ((fun m => (tid, m)) <$> ms).
Proof.
  intros Hth.
  assert (Hstay : exists ms l, move (at_pc th) ms l
            /\ threads w = <[tid := with_pc l th]> (threads w)
            /\ puts w = puts w ++ ((fun m => (tid, m)) <$> ms)).
  { exists [], (at_pc th). split; [constructor|].
    rewrite with_pc_same, list_insert_id by done. by rewrite app_nil_r. }
  unfold run_in_thread. rewrite Hth.
  destruct (at_pc th) eqn:Hpc, r; try exact Hstay; clear Hstay.
  - moved (@nil msg) (AtReadline (length (children w))) Hth.
  - moved [MError e] Returned Hth.
  - destruct (String.eqb_spec line "") as [->|Hne].
    + moved (@nil msg) AtWait Hth.
    + assert (truthy line = true) as -> by by apply truthy_nonempty.
      exists [MOutput line], (AtReadline p). split; [by apply move_line|].
      simpl. rewrite <- Hpc, with_pc_same, list_insert_id by done. done.
  - moved [MError e] Returned Hth.
  - destruct (current_process w).
    + moved [MFinished returncode] Returned Hth.
    + moved [MError AttributeError_wait] Returned Hth.
  - destruct (current_process w).
    + moved [MError e] Returned Hth.
    + moved [MError AttributeError_wait] Returned Hth.
Qed.

Lemma tagged_snd (tid : nat) (ms : list msg) : (tagged tid ms).*2 = ms.
Proof.
  unfold tagged. induction ms as [|m ms IH]; [done|].
  rewrite !fmap_cons. simpl. by rewrite IH.
Qed.

(** Closes a case of [run_in_thread_effect] in which the thread of [Hth]
    put [ms] and went to [l] without spawning. *)
Ltac effect ms l Hth :=
  exists ms, l; split;
  [ first [ apply move_eof | by apply move_line | by apply move_return ]
  | simpl; rewrite ?(alter_with_pc _ _ _ _ Hth), ?app_nil_r;
    repeat split; try done; by right ].

(** All a step of [run_in_thread] does: the thread makes one move, what
    it puts goes to the back of the queue, the widget's label, button,
    log and emissions are not touched, and only the [Popen] step adds a
    child and sets [current_process]. *)
Lemma run_in_thread_effect (tid : nat) (r : reply) (w : state) (th : thread) :
  threads w !! tid = Some th ->
  exists ms l,
    move (at_pc th) ms l
    /\ threads (run_in_thread tid r w) = <[tid := with_pc l th]> (threads w)
    /\ puts (run_in_thread tid r w) = puts w ++ tagged tid ms
    /\ output_queue (run_in_thread tid r w) = output_queue w ++ ms
    /\ ui_but_process (run_in_thread tid r w) = ui_but_process w
    /\ terminated (run_in_thread tid r w) = terminated w
    /\ ((at_pc th = AtPopen /\ l = AtReadline (length (children w)) /\ ms = []
         /\ children (run_in_thread tid r w)
            = children w ++ [(command th, working_dir th)]
         /\ current_process (run_in_thread tid r w) = Some (length (children w)))
        \/ (children (run_in_thread tid r w) = children w
            /\ current_process (run_in_thread tid r w) = current_process w)).
Proof.
  intros Hth.
  assert (Hstay : exists ms l, move (at_pc th) ms l
            /\ threads w = <[tid := with_pc l th]> (threads w)
            /\ puts w = puts w ++ tagged tid ms
            /\ output_queue w = output_queue w ++ ms
            /\ ui_but_process w = ui_but_process w
            /\ terminated w = terminated w
            /\ ((at_pc th = AtPopen /\ l = AtReadline (length (children w)) /\ ms = []
                 /\ children w = children w ++ [(command th, working_dir th)]
                 /\ current_process w = Some (length (children w)))
                \/ (children w = children w /\ current_process w = current_process w))).
  { exists [], (at_pc th). split; [constructor|].
    rewrite with_pc_same, list_insert_id, !app_nil_r by done.
    repeat split; by right. }
  unfold run_in_thread. rewrite Hth.
  destruct (at_pc th) eqn:Hpc, r; try exact Hstay; clear Hstay.
  - exists [], (AtReadline (length (children w))). split; [apply move_spawn|].
    simpl. rewrite (alter_with_pc _ _ _ _ Hth), !app_nil_r.
    repeat split; try done. by left.
  - effect [MError e] Returned Hth.
  - destruct (String.eqb_spec line "") as [->|Hne].
    + effect (@nil msg) AtWait Hth.
    + assert (truthy line = true) as -> by by apply truthy_nonempty.
      exists [MOutput line], (AtReadline p). split; [by apply move_line|].
      simpl. rewrite <- Hpc, with_pc_same, list_insert_id by done.
      repeat split; try done. by right.
  - effect [MError e] Returned Hth.
  - destruct (current_process w) eqn:Hcp.
    + effect [MFinished returncode] Returned Hth.
    + effect [MError AttributeError_wait] Returned Hth.
  - destruct (current_process w) eqn:Hcp.
    + effect [MError e] Returned Hth.
    + effect [MError AttributeError_wait] Returned Hth.
Qed.

Lemma run_in_thread_no_thread (tid : nat) (r : reply) (w : state) :
  threads w !! tid = None -> run_in_thread tid r w = w.
Proof. intros H. unfold run_in_thread. by rewrite H. Qed.

(** The slots of the UI thread leave the thread table and the put
    history alone; only [execute_command] adds a thread. *)
Lemma update_output_frame (w : state) :
  threads (update_output w) = threads w /\ puts (update_output w) = puts w.
Proof. destruct (drain_frame (output_queue w) w) as (_ & ? & ? & _). done. Qed.

Lemma stop_command_frame (w : state) :
  threads (stop_command w) = threads w /\ puts (stop_command w) = puts w.
Proof. unfold stop_command. by destruct (current_process w). Qed.

Lemma stop_command_keeps (w : state) :
  output_queue (stop_command w) = output_queue w
  /\ current_process (stop_command w) = current_process w
  /\ status_label (stop_command w) = status_label w.
Proof. unfold stop_command. by destruct (current_process w) eqn:E. Qed.

Lemma execute_command_frame (command : string) (working_dir : option string)
    (w : state) :
  threads (execute_command command working_dir w)
  = threads w ++ [mkThread command working_dir AtPopen]
  /\ puts (execute_command command working_dir w) = puts w
  /\ output_queue (execute_command command working_dir w) = output_queue w
  /\ current_process (execute_command command working_dir w) = current_process w.
Proof. done. Qed.

(** The put history of one thread under a step of some thread. *)
Lemma filter_tagged_same (tid : nat) (ms : list msg) :
  (filter (fun x : nat * msg => x.1 = tid) ((fun m => (tid, m)) <$> ms)).*2 = ms.
Proof.
  induction ms as [|m ms IH]; [done|].
  rewrite fmap_cons, filter_cons_True by done. by rewrite fmap_cons, IH.
Qed.

Lemma filter_tagged_other (tid tid' : nat) (ms : list msg) :
  tid <> tid' ->
  filter (fun x : nat * msg => x.1 = tid) ((fun m => (tid', m)) <$> ms) = [].
Proof.
  intros Hne. induction ms as [|m ms IH]; [done|].
  rewrite fmap_cons, filter_cons_False; [done|]. simpl. congruence.
Qed.

Lemma filter_bounded_fresh (n : nat) (l : list (nat * msg)) :
  Forall (fun x => x.1 < n) l -> filter (fun x : nat * msg => x.1 = n) l = [].
Proof.
  induction 1 as [|x l Hx _ IH]; [done|].
  rewrite filter_cons_False; [done|]. lia.
Qed.

(** ** The queue and the history of puts *)

(** What one action adds to the history goes to the back of the queue,
    and a tick takes the whole queue. *)
Lemma step_queue (w : state) (a : action) :
  exists new,
    puts (step w a) = puts w ++ new
    /\ dispatched w [a] ++ output_queue (step w a) = output_queue w ++ new.*2.
Proof.
  destruct a as [c d| | | |tid r]; unfold step; simpl dispatched.
  - exists []. by rewrite !app_nil_r.
  - destruct (drain_frame (output_queue w) w) as (Hq & _ & Hp & _).
    exists []. unfold update_output. by rewrite Hq, Hp, !app_nil_r.
  - destruct (stop_command_frame w) as [_ Hp].
    destruct (stop_command_keeps w) as (Hq & _).
    exists []. by rewrite Hq, Hp, !app_nil_r.
  - exists []. by rewrite !app_nil_r.
  - destruct (threads w !! tid) as [th|] eqn:Hth.
    + destruct (run_in_thread_effect tid r w th Hth) as (ms & l & _ & _ & Hp & Hq & _).
      exists (tagged tid ms). by rewrite Hp, Hq, tagged_snd.
    + rewrite run_in_thread_no_thread by done. exists []. by rewrite !app_nil_r.
Qed.

(** Over a run: every message put since the start of the run has been
    taken by [update_output] or waits on the queue, in the order of the
    puts, behind what waited at the start; nothing else is on the queue. *)
Lemma queue_history (s : list action) (w : state) :
  exists new,
    puts (run w s) = puts w ++ new
    /\ dispatched w s ++ output_queue (run w s) = output_queue w ++ new.*2.
Proof.
  revert w. induction s as [|a s IH]; intros w.
  - exists []. by rewrite !app_nil_r.
  - destruct (step_queue w a) as (n1 & Hp1 & Hq1).
    destruct (IH (step w a)) as (n2 & Hp2 & Hq2).
    exists (n1 ++ n2). simpl run. rewrite Hp2, Hp1, <- app_assoc. split; [done|].
    simpl dispatched in *. rewrite app_nil_r in Hq1.
    rewrite <- app_assoc, Hq2, app_assoc, Hq1, fmap_app. by rewrite <- app_assoc.
Qed.

Lemma queue_history_init (s : list action) :
  dispatched init s ++ output_queue (run init s) = (puts (run init s)).*2.
Proof. destruct (queue_history s init) as (new & -> & ->). done. Qed.

(** ** One terminal event for each invocation *)

Lemma shape_move (th : thread) (old ms : list msg) (l : pc) :
  move (at_pc th) ms l -> shape th old -> shape (with_pc l th) (old ++ ms).
Proof.
  intros Hmove (lines & Hlines & Hshape). unfold shape, returned in *. simpl.
  inversion Hmove as [l0 E1 E2|p E1 E2|p line Hne E1 E2|p E1 E2|l0 t Hnr Ht E1 E2];
    subst; rewrite ?app_nil_r.
  - by exists lines.
  - rewrite <- E1 in Hshape. by exists lines.
  - rewrite <- E1 in Hshape. exists (lines ++ [line]). split.
    + apply Forall_app. by split; [|constructor].
    + by rewrite Hshape, fmap_app.
  - rewrite <- E1 in Hshape. by exists lines.
  - exists lines. split; [done|]. exists t. split; [done|].
    destruct (at_pc th); by subst.
Qed.

Lemma inv_init : inv init.
Proof. split; [constructor | intros tid th H; by destruct tid]. Qed.

Lemma inv_same (w w' : state) :
  threads w' = threads w -> puts w' = puts w -> inv w -> inv w'.
Proof.
  intros Hth Hputs [Hb Hs]. unfold inv, puts_of. rewrite Hth, Hputs. done.
Qed.

Lemma inv_step (w : state) (a : action) : inv w -> inv (step w a).
Proof.
  intros Hinv. destruct a as [c d| | | |tid r]; simpl.
  - (* Execute *)
    destruct Hinv as [Hb Hs].
    destruct (execute_command_frame c d w) as (Hth & Hputs & _).
    unfold inv, puts_of. rewrite Hth, Hputs. split.
    + eapply Forall_impl; [exact Hb|]. intros x Hx. rewrite length_app. simpl in *. lia.
    + intros tid th Hlook.
      destruct (decide (tid < length (threads w))) as [Hlt|Hge].
      * rewrite lookup_app_l in Hlook by done. by apply Hs.
      * rewrite lookup_app_r in Hlook by lia.
        destruct (tid - length (threads w)) as [|k] eqn:Hk; [|by destruct k].
        injection Hlook as <-. assert (tid = length (threads w)) as -> by lia.
        rewrite filter_bounded_fresh by done. by exists [].
  - (* Tick *)
    destruct (update_output_frame w). by apply (inv_same w).
  - (* Stop *)
    destruct (stop_command_frame w). by apply (inv_same w).
  - (* Clear *)
    by apply (inv_same w).
  - (* a step of thread tid *)
    destruct (threads w !! tid) as [th|] eqn:Hth;
      [|by rewrite run_in_thread_no_thread].
    destruct Hinv as [Hb Hs].
    destruct (run_in_thread_move tid r w th Hth) as (ms & l & Hmove & Hths & Hputs).
    unfold inv, puts_of. rewrite Hths, Hputs, length_insert. split.
    + apply Forall_app. split; [done|].
      apply Forall_fmap, Forall_forall. intros m _. simpl.
      by apply lookup_lt_is_Some.
    + intros tid' th' Hlook. rewrite filter_app, fmap_app.
      destruct (decide (tid = tid')) as [<-|Hne].
      * rewrite list_lookup_insert_eq in Hlook by by apply lookup_lt_is_Some.
        injection Hlook as <-. rewrite filter_tagged_same.
        apply shape_move; [done|]. by apply Hs.
      * rewrite list_lookup_insert_ne in Hlook by done.
        rewrite filter_tagged_other by done. rewrite app_nil_r. by apply Hs.
Qed.

Lemma inv_run (s : list action) (w : state) : inv w -> inv (run w s).
Proof.
  revert w. induction s as [|a s IH]; intros w Hw; [done|].
  simpl. apply IH. by apply inv_step.
Qed.

Lemma filter_terminal_outputs (lines : list string) :
  filter (fun m => is_terminal m = true) (MOutput <$> lines) = [].
Proof.
  induction lines as [|l lines IH]; [done|].
  rewrite fmap_cons, filter_cons_False; [done|]. simpl. discriminate.
Qed.

Lemma shape_terminal_events (th : thread) (ms : list msg) :
  shape th ms ->
  length (filter (fun m => is_terminal m = true) ms) = if returned th then 1 else 0.
Proof.
  intros (lines & _ & H). destruct (returned th).
  - destruct H as (t & Ht & ->).
    rewrite filter_app, filter_terminal_outputs, filter_cons_True by done. done.
  - subst. by rewrite filter_terminal_outputs.
Qed.

(** A thread that has returned stays as it is and puts nothing more. *)
Lemma run_in_thread_returned (tid : nat) (r : reply) (w : state) (th : thread) :
  threads w !! tid = Some th -> returned th = true -> run_in_thread tid r w = w.
Proof.
  intros Hth Hret. unfold run_in_thread. rewrite Hth.
  unfold returned in Hret. by destruct (at_pc th), r.
Qed.

Lemma returned_step (w : state) (a : action) (tid : nat) (th : thread) :
  threads w !! tid = Some th -> returned th = true ->
  threads (step w a) !! tid = Some th /\ puts_of tid (step w a) = puts_of tid w.
Proof.
  intros Hth Hret. destruct a as [c d| | | |tid' r]; unfold step.
  - destruct (execute_command_frame c d w) as (Ht & Hp & _).
    unfold puts_of. rewrite Ht, Hp. split; [|done].
    rewrite lookup_app_l; [done|]. by apply lookup_lt_is_Some.
  - destruct (update_output_frame w) as [Ht Hp]. unfold puts_of. by rewrite Ht, Hp.
  - destruct (stop_command_frame w) as [Ht Hp]. unfold puts_of. by rewrite Ht, Hp.
  - done.
  - destruct (decide (tid' = tid)) as [->|Hne].
    + by rewrite (run_in_thread_returned tid r w th).
    + destruct (threads w !! tid') as [th'|] eqn:Hth';
        [|by rewrite run_in_thread_no_thread].
      destruct (run_in_thread_move tid' r w th' Hth') as (ms & l & _ & Hths & Hputs).
      unfold puts_of. rewrite Hths, Hputs, filter_app.
      rewrite list_lookup_insert_ne by done.
      rewrite filter_tagged_other by done. by rewrite app_nil_r.
Qed.

Lemma returned_run (s : list action) (w : state) (tid : nat) (th : thread) :
  threads w !! tid = Some th -> returned th = true ->
  threads (run w s) !! tid = Some th /\ puts_of tid (run w s) = puts_of tid w.
Proof.
  revert w. induction s as [|a s IH]; intros w Hth Hret; [done|].
  destruct (returned_step w a tid th Hth Hret) as [Hth' Hp].
  simpl. destruct (IH (step w a) Hth' Hret) as [? ->]. done.
Qed.

(** A thread, once started, stays in the table. *)
Lemma thread_stays_step (w : state) (a : action) (tid : nat) :
  is_Some (threads w !! tid) -> is_Some (threads (step w a) !! tid).
Proof.
  rewrite !lookup_lt_is_Some. intros Hlt.
  destruct a as [c d| | | |tid' r]; unfold step.
  - destruct (execute_command_frame c d w) as (-> & _). rewrite length_app. lia.
  - destruct (update_output_frame w) as [-> _]. done.
  - destruct (stop_command_frame w) as [-> _]. done.
  - done.
  - destruct (threads w !! tid') as [th'|] eqn:Hth';
      [|by rewrite run_in_thread_no_thread].
    destruct (run_in_thread_move tid' r w th' Hth') as (ms & l & _ & -> & _).
    by rewrite length_insert.
Qed.

Lemma thread_stays_run (s : list action) (w : state) (tid : nat) :
  is_Some (threads w !! tid) -> is_Some (threads (run w s) !! tid).
Proof.
  revert w. induction s as [|a s IH]; intros w H; [done|].
  simpl. apply IH. by apply thread_stays_step.
Qed.

Lemma run_app (w : state) (s s' : list action) : run w (s ++ s') = run (run w s) s'.
Proof. apply foldl_app. Qed.

Lemma lookup_goto (tid : nat) (l : pc) (w : state) (th : thread) :
  threads w !! tid = Some th -> threads (goto tid l w) !! tid = Some (with_pc l th).
Proof. intros H. simpl. by rewrite list_lookup_alter_eq, H. Qed.

(** The terminal events of the history number the threads that have
    returned. *)
Lemma count_insert (f : thread -> bool) (ths : list thread) (tid : nat)
    (th th' : thread) :
  ths !! tid = Some th ->
  length (filter (fun x => f x = true) (<[tid := th']> ths)) + (if f th then 1 else 0)
  = length (filter (fun x => f x = true) ths) + (if f th' then 1 else 0).
Proof.
  intros Hth. rewrite insert_take_drop by by apply lookup_lt_is_Some.
  rewrite <- (take_drop_middle ths tid th Hth) at 3.
  rewrite !filter_app, !filter_cons, !length_app.
  destruct (f th), (f th'); repeat case_decide; try done; simpl; lia.
Qed.

Lemma move_terminal (th : thread) (ms : list msg) (l : pc) :
  move (at_pc th) ms l ->
  length (filter (fun m => is_terminal m = true) ms) + (if returned th then 1 else 0)
  = if returned (with_pc l th) then 1 else 0.
Proof.
  unfold returned. simpl. intros Hmove.
  inversion Hmove as [l0 E1 E2|p E1 E2|p line Hne E1 E2|p E1 E2|l0 t Hnr Ht E1 E2];
    subst; try done.
  rewrite filter_cons_True by done. simpl. by destruct (at_pc th).
Qed.

Lemma terminal_count (s : list action) :
  length (filter (fun m => is_terminal m = true) (puts (run init s)).*2)
  = length (filter (fun th => returned th = true) (threads (run init s))).
Proof.
  assert (Hrun : forall s w,
            length (filter (fun m => is_terminal m = true) (puts w).*2)
            = length (filter (fun th => returned th = true) (threads w)) ->
            length (filter (fun m => is_terminal m = true) (puts (run w s)).*2)
            = length (filter (fun th => returned th = true) (threads (run w s)))).
  { clear s. induction s as [|a s IH]; intros w Hw; [done|].
    simpl. apply IH. destruct a as [c d| | | |tid r]; unfold step.
    - destruct (execute_command_frame c d w) as (-> & -> & _).
      rewrite filter_app, length_app, Hw. simpl. lia.
    - destruct (update_output_frame w) as [-> ->]. done.
    - destruct (stop_command_frame w) as [-> ->]. done.
    - done.
    - destruct (threads w !! tid) as [th|] eqn:Hth;
        [|by rewrite run_in_thread_no_thread].
      destruct (run_in_thread_effect tid r w th Hth) as (ms & l & Hmove & -> & -> & _).
      rewrite fmap_app, tagged_snd, filter_app, length_app, Hw.
      assert (H1 := count_insert returned (threads w) tid th (with_pc l th) Hth).
      assert (H2 := move_terminal th ms l Hmove). lia. }
  by apply Hrun.
Qed.

(** Where a step leaves the thread that takes it. *)
Lemma next_pc_step (tid : nat) (r : reply) (w : state) (th : thread) :
  threads w !! tid = Some th ->
  threads (run_in_thread tid r w) !! tid
  = Some (with_pc (next_pc (length (children w)) (at_pc th) r) th).
Proof.
  intros Hth.
  assert (Hstay : threads w !! tid = Some (with_pc (at_pc th) th))
    by by rewrite with_pc_same.
  unfold run_in_thread. rewrite Hth.
  destruct (at_pc th) eqn:Hpc, r; try exact Hstay; clear Hstay; unfold next_pc.
  - by apply lookup_goto.
  - by apply lookup_goto.
  - destruct (String.eqb line ""); [by apply lookup_goto|].
    destruct (truthy line); simpl; by rewrite <- Hpc, with_pc_same.
  - by apply lookup_goto.
  - destruct (current_process w); by apply lookup_goto.
  - destruct (current_process w); by apply lookup_goto.
Qed.

(** An action that is not a step of thread [tid] leaves it where it
    stands. *)
Lemma other_step (tid : nat) (w : state) (a : action) (th : thread) :
  threads w !! tid = Some th ->
  (forall r, a <> Thread tid r) ->
  threads (step w a) !! tid = Some th.
Proof.
  intros Hth Ha. destruct a as [c d| | | |tid' r]; unfold step.
  - destruct (execute_command_frame c d w) as (-> & _).
    rewrite lookup_app_l; [done|]. by apply lookup_lt_is_Some.
  - by destruct (update_output_frame w) as [-> _].
  - by destruct (stop_command_frame w) as [-> _].
  - done.
  - destruct (decide (tid' = tid)) as [->|Hne]; [by destruct (Ha r)|].
    destruct (threads w !! tid') as [th'|] eqn:Hth';
      [|by rewrite run_in_thread_no_thread].
    destruct (run_in_thread_effect tid' r w th' Hth') as (ms & l & _ & -> & _).
    by rewrite list_lookup_insert_ne.
Qed.

Lemma completes_index (p q : nat) (rs : list reply) :
  completes (AtReadline p) rs = completes (AtReadline q) rs.
Proof.
  induction rs as [|r rs IH]; [done|].
  destruct r; simpl; try exact IH; try reflexivity.
  destruct (String.eqb line ""); [done|exact IH].
Qed.

Lemma completes_fresh (n : nat) (l : pc) (r : reply) (rs : list reply) :
  completes (next_pc n l r) rs = completes (next_pc 0 l r) rs.
Proof. destruct l, r; try done. apply completes_index. Qed.

(** Replies that take the thread to its end make it return, whatever
    else happens in between. *)
Lemma completes_run (s : list action) (w : state) (tid : nat) (th : thread) :
  threads w !! tid = Some th ->
  completes (at_pc th) (replies_of tid s) = true ->
  exists th', threads (run w s) !! tid = Some th' /\ returned th' = true.
Proof.
  revert w th. induction s as [|a s IH]; intros w th Hth Hc.
  - exists th. split; [done|]. unfold returned. by destruct (at_pc th).
  - destruct (returned th) eqn:Hret.
    { exists th. split; [|done]. by apply (returned_run (a :: s) w tid th). }
    assert (Hother : (forall r, a <> Thread tid r) ->
              replies_of tid (a :: s) = replies_of tid s ->
              exists th', threads (run w (a :: s)) !! tid = Some th' /\ returned th' = true).
    { intros Ha Hr. rewrite Hr in Hc. apply (IH (step w a) th); [|done].
      by apply other_step. }
    destruct a as [c d| | | |tid' r]; try (apply Hother; done).
    destruct (decide (tid' = tid)) as [->|Hne].
    + simpl in Hc. rewrite decide_True in Hc by done.
      assert (Hnext := next_pc_step tid r w th Hth).
      apply (IH _ _ Hnext). simpl at_pc. rewrite completes_fresh.
      unfold returned in Hret. by destruct (at_pc th).
    + apply Hother; [congruence|]. simpl. by rewrite decide_False.
Qed.

(** C7: in every run, whatever the interleaving of thread steps, timer
    ticks, stops and clears: the history of puts is what went through the
    queue (taken by [update_output] or still waiting); the terminal
    events ([finished] or [error]) that went through the queue number
    the threads that have returned; an invocation has put exactly one
    terminal event once its thread has returned and none before; it
    never has two, however the run goes on; and it has one as soon as its
    thread has been given replies that take it to its end (its child
    exits, after a stop or not, or a call raises). *)
Theorem one_terminal_event (s : list action) (tid : nat) (th : thread) :
  threads (run init s) !! tid = Some th ->
  let w := run init s in
  dispatched init s ++ output_queue w = (puts w).*2
  /\ length (filter (fun m => is_terminal m = true) (dispatched init s ++ output_queue w))
     = length (filter (fun th => returned th = true) (threads w))
  /\ terminal_events tid w = (if returned th then 1 else 0)
  /\ (forall s', terminal_events tid (run init (s ++ s')) <= 1)
  /\ (forall s', completes (at_pc th) (replies_of tid s') = true ->
        terminal_events tid (run init (s ++ s')) = 1).
Proof.
  intros Hth w.
  assert (Hcount : forall s0 th0, threads (run init s0) !! tid = Some th0 ->
            terminal_events tid (run init s0) = if returned th0 then 1 else 0).
  { intros s0 th0 H0. apply shape_terminal_events.
    by apply (inv_run s0 init inv_init). }
  split; [apply queue_history_init|].
  split; [subst w; rewrite queue_history_init; apply terminal_count|].
  split; [by apply Hcount|]. split.
  - intros s'.
    destruct (thread_stays_run s' (run init s) tid) as [th' Hth']; [by eexists|].
    rewrite <- run_app in Hth'. rewrite (Hcount _ _ Hth').
    destruct (returned th'); lia.
  - intros s' Hc.
    destruct (completes_run s' (run init s) tid th Hth Hc) as (th' & Hth' & Hret).
    rewrite <- run_app in Hth'. by rewrite (Hcount _ _ Hth'), Hret.
Qed.

Lemma one_terminal_event_witness :
  let s := [Execute "sleep 100" None; Thread 0 PopenReturns; Stop] in
  let s' := (Thread 0 <$> exit_replies (AtReadline 0) (-15)) ++ [Tick] in
  threads (run init s) !! 0%nat = Some (mkThread "sleep 100" None (AtReadline 0))
  /\ completes (AtReadline 0) (replies_of 0 s') = true
  /\ terminal_events 0 (run init (s ++ s')) = 1%nat.
Proof.
  intros s s'.
  assert (H : threads (run init s) !! 0%nat
              = Some (mkThread "sleep 100" None (AtReadline 0))) by reflexivity.
  split; [exact H|]. split; [reflexivity|].
  destruct (one_terminal_event s 0 (mkThread "sleep 100" None (AtReadline 0)) H)
    as (_ & _ & _ & _ & Hend).
  apply (Hend s'). reflexivity.
Defined.

(** ** Exceptions in the thread *)

Lemma filter_error_outputs (lines : list string) :
  filter (fun m => is_error m = true) (MOutput <$> lines) = [].
Proof.
  induction lines as [|l lines IH]; [done|].
  rewrite fmap_cons, filter_cons_False; [done|]. simpl. discriminate.
Qed.

Lemma filter_finished_outputs (lines : list string) :
  filter (fun m => is_finished m = true) (MOutput <$> lines) = [].
Proof.
  induction lines as [|l lines IH]; [done|].
  rewrite fmap_cons, filter_cons_False; [done|]. simpl. discriminate.
Qed.

Lemma raise_step (tid : nat) (r : reply) (e : string) (w : state) (th : thread) :
  threads w !! tid = Some th -> raises_at (at_pc th) r e ->
  run_in_thread tid r w = except_Exception tid e w.
Proof.
  intros Hth [[Hpc ->]|(p & Hpc & ->)]; unfold run_in_thread; by rewrite Hth, Hpc.
Qed.

(** What is put after a thread has returned is put by other threads. *)
Lemma later_puts_of_others (tid : nat) (old later : list (nat * msg)) :
  (filter (fun x : nat * msg => x.1 = tid) (old ++ later)).*2
  = (filter (fun x : nat * msg => x.1 = tid) old).*2 ->
  Forall (fun x => x.1 <> tid) later.
Proof.
  intros H. apply (f_equal length) in H.
  rewrite filter_app, !length_fmap, length_app in H.
  assert (Hlen : length (filter (fun x : nat * msg => x.1 = tid) later) = 0) by lia.
  clear H. induction later as [|x later IH]; [constructor|].
  rewrite filter_cons in Hlen. case_decide as Hx; [done|].
  constructor; [done|by apply IH].
Qed.

(** C5: when [Popen] or a [readline] raises [e] in the thread of an
    invocation, the [except] clause puts [('error', str(e))] at the back
    of the queue and the thread returns; the step touches nothing else:
    status, stop button, log, emissions and [current_process] are as they
    were, so nothing reaches the UI thread but the message on the queue.
    Whatever happens next, all that is put on the queue later is put by
    other threads: the invocation has put that one error event and no
    [finished] event, after the lines read before. *)
Theorem exception_becomes_error_event (s s' : list action) (tid : nat)
    (th : thread) (r : reply) (e : string) :
  threads (run init s) !! tid = Some th ->
  raises_at (at_pc th) r e ->
  let w := run init s in
  let w1 := run_in_thread tid r w in
  let w' := run w1 s' in
  w1 = mkState (current_process w) (output_queue w ++ [MError e]) (status_label w)
         (stop_btn w) (output w) (<[tid := with_pc Returned th]> (threads w))
         (children w) (terminated w) (emitted w) (puts w ++ [(tid, MError e)])
  /\ output_queue w1 = output_queue w ++ [MError e]
  /\ threads w' !! tid = Some (with_pc Returned th)
  /\ (exists later,
        puts w' = puts w1 ++ later
        /\ dispatched w1 s' ++ output_queue w' = output_queue w1 ++ later.*2
        /\ Forall (fun x => x.1 <> tid) later)
  /\ puts_of tid w' = puts_of tid w ++ [MError e]
  /\ filter (fun m => is_error m = true) (puts_of tid w') = [MError e]
  /\ filter (fun m => is_finished m = true) (puts_of tid w') = [].
Proof.
  intros Hth Hraise w w1 w'.
  assert (Hstep : w1 = except_Exception tid e w)
    by by apply (raise_step tid r e w th).
  assert (Hnot : returned th = false).
  { unfold returned. by destruct Hraise as [[-> _]|(p & -> & _)]. }
  destruct (inv_run s init inv_init) as [_ Hshape].
  destruct (Hshape tid th Hth) as (lines & _ & Hlines). rewrite Hnot in Hlines.
  fold w in Hlines.
  assert (Hth1 : threads w1 !! tid = Some (with_pc Returned th))
    by (rewrite Hstep; by apply lookup_goto).
  assert (Hputs1 : puts_of tid w1 = puts_of tid w ++ [MError e]).
  { rewrite Hstep. unfold puts_of. simpl. rewrite filter_app, fmap_app.
    by rewrite filter_cons_True, filter_nil by done. }
  destruct (returned_run s' w1 tid _ Hth1 eq_refl) as [Hth2 Hputs2].
  fold w' in Hth2, Hputs2.
  assert (Hfull : w1 = mkState (current_process w) (output_queue w ++ [MError e])
            (status_label w) (stop_btn w) (output w)
            (<[tid := with_pc Returned th]> (threads w))
            (children w) (terminated w) (emitted w) (puts w ++ [(tid, MError e)])).
  { rewrite Hstep. unfold except_Exception, goto, put. simpl.
    by rewrite (alter_with_pc _ _ _ _ Hth). }
  split; [exact Hfull|]. split; [by rewrite Hfull|]. split; [exact Hth2|].
  split.
  { destruct (queue_history s' w1) as (later & Hp & Hq). fold w' in Hp, Hq.
    exists later. split; [exact Hp|]. split; [exact Hq|].
    apply (later_puts_of_others tid (puts w1)). rewrite <- Hp. exact Hputs2. }
  rewrite Hputs2, Hputs1, Hlines.
  split; [done|].
  rewrite !filter_app, filter_error_outputs, filter_finished_outputs.
  split; [by rewrite filter_cons_True, filter_nil by done|].
  by rewrite filter_cons_False by done.
Qed.

Lemma exception_becomes_error_event_witness :
  let s := [Execute "cat /bin/ls" None; Thread 0 PopenReturns;
            Thread 0 (ReadlineReturns ("ELF" +:+ nl))] in
  let e := "'utf-8' codec can't decode byte 0x80 in position 24: invalid start byte" in
  threads (run init s) !! 0%nat = Some (mkThread "cat /bin/ls" None (AtReadline 0))
  /\ raises_at (AtReadline 0) (ReadlineRaises e) e
  /\ output_queue (run_in_thread 0 (ReadlineRaises e) (run init s))
     = output_queue (run init s) ++ [MError e].
Proof.
  intros s e.
  assert (H1 : threads (run init s) !! 0%nat
               = Some (mkThread "cat /bin/ls" None (AtReadline 0))) by reflexivity.
  assert (H2 : raises_at (AtReadline 0) (ReadlineRaises e) e)
    by (right; exists 0%nat; split; reflexivity).
  split; [exact H1|]. split; [exact H2|].
  apply (exception_becomes_error_event s [Tick; Thread 0 (WaitReturns 0)] 0
           (mkThread "cat /bin/ls" None (AtReadline 0)) (ReadlineRaises e) e H1 H2).
Defined.

(** ** A command that runs to its end *)

Lemma drain_no_finished (q : list msg) (w : state) :
  no_finished q -> current_process (drain q w) = current_process w.
Proof.
  revert w. induction q as [|m q IH]; intros w Hq; [done|].
  inversion Hq as [|m' q' Hm Hq']; subst. simpl. rewrite IH by done.
  by destruct m.
Qed.

(** The invocation followed is thread [tid]; its child exits with [rc]. *)
Section Alone.
Variables (tid : nat) (rc : Z).

(** A slot that leaves threads alone, adds no [finished] event and
    keeps [current_process] keeps the thread on track. *)
Lemma on_track_ui (w w' : state) rest todo :
  threads w' = threads w ->
  (no_finished (output_queue w) -> no_finished (output_queue w')) ->
  (no_finished (output_queue w) -> current_process w' = current_process w) ->
  on_track tid rc w rest todo -> on_track tid rc w' rest todo.
Proof.
  intros Hth Hq Hcp (Hothers & th & Hlook & Hpc).
  unfold on_track. rewrite Hth. split; [done|]. exists th. split; [done|].
  destruct (at_pc th); [| | |done].
  - destruct Hpc as (? & ?). auto.
  - destruct Hpc as (? & ? & ?). rewrite Hcp by done. auto.
  - destruct Hpc as (? & ? & ?). rewrite Hcp by done. auto.
Qed.

(** The reply expected next moves the thread on, and it puts the next
    messages due. *)
Lemma on_track_step (w : state) (r : reply) rest todo :
  on_track tid rc w (r :: rest) todo ->
  exists ms todo',
    todo = ms ++ todo'
    /\ puts (run_in_thread tid r w) = puts w ++ tagged tid ms
    /\ on_track tid rc (run_in_thread tid r w) rest todo'.
Proof.
  intros (Hothers & th & Hlook & Hpc).
  assert (Hkeep : forall l w', threads w' = alter (fun th => mkThread (command th) (working_dir th) l) tid (threads w) ->
            (forall t th, t <> tid -> threads w' !! t = Some th -> returned th = true)
            /\ threads w' !! tid = Some (with_pc l th)).
  { intros l w' ->. split.
    - intros t th' Hne. rewrite list_lookup_alter_ne by done. by apply Hothers.
    - by rewrite list_lookup_alter_eq, Hlook. }
  unfold run_in_thread. rewrite Hlook.
  destruct (at_pc th) as [|p| |] eqn:E.
  - destruct Hpc as (Hq & lines & Hne & Hrest & ->).
    injection Hrest as -> ->.
    exists [], ((MOutput <$> lines) ++ [MFinished rc]).
    split; [done|]. split; [by rewrite app_nil_r|].
    edestruct (Hkeep (AtReadline (length (children w)))) as [H1 H2]; [|split; [exact H1|]].
    { reflexivity. }
    eexists. split; [exact H2|]. simpl. split; [done|]. split; [by eexists|].
    by exists lines.
  - destruct Hpc as (Hq & Hcp & lines & Hne & Hrest & ->).
    destruct lines as [|line lines].
    + injection Hrest as -> ->. simpl.
      exists [], [MFinished rc]. split; [done|]. split; [by rewrite app_nil_r|].
      edestruct (Hkeep AtWait) as [H1 H2]; [|split; [exact H1|]].
      { reflexivity. }
      eexists. split; [exact H2|]. done.
    + injection Hrest as -> ->.
      inversion Hne as [|? ? Hline Hne']; subst.
      destruct (String.eqb_spec line "") as [?|_]; [done|].
      assert (truthy line = true) as -> by by apply truthy_nonempty.
      exists [MOutput line], ((MOutput <$> lines) ++ [MFinished rc]).
      split; [done|]. split; [done|]. split; [done|].
      exists th. split; [done|]. rewrite E. simpl.
      split; [apply Forall_app; split; [done|by constructor]|].
      split; [done|]. by exists lines.
  - destruct Hpc as (Hq & [q Hcp] & Hrest & ->). injection Hrest as -> ->.
    rewrite Hcp.
    exists [MFinished rc], []. split; [done|]. split; [done|].
    edestruct (Hkeep Returned) as [H1 H2]; [|split; [exact H1|]].
    { reflexivity. }
    eexists. split; [exact H2|]. done.
  - by destruct Hpc.
Qed.


End Alone.








(** ** Saving *)

Lemma translate_newlines_nl (s : string) : translate_newlines nl s = s.
Proof.
  induction s as [|c s IH]; [reflexivity|]. simpl.
  destruct (Ascii.eqb_spec c (ascii_of_nat 10)) as [->|_]; by rewrite IH.
Qed.

(** C8: with a path chosen in the dialog, [save_output] leaves in the
    file that the path names exactly the text of the log as
    [toPlainText()] gives it at that moment, in UTF-8, with nothing in
    front, behind or in between, and raises nothing; for a log in which
    Qt rewrites no character that text is the texts appended, one after
    the other.  An exception of [open], of the write or of the close is
    not caught: it reaches the caller.  With the dialog cancelled nothing
    is written. *)
Theorem save_output_writes_log (resolve : string -> nat) (path : string)
    (w : state) (fs : gmap nat string) :
  path <> "" ->
  save_output resolve path IoOk w fs = (<[resolve path := toPlainText w]> fs, None)
  /\ (Forall (fun r => qt_keeps r.1) (output w) ->
      (save_output resolve path IoOk w fs).1 !! resolve path
      = Some (foldr (fun r acc => r.1 +:+ acc) "" (output w)))
  /\ (forall e, save_output resolve path (OpenRaises e) w fs = (fs, Some (OSError e)))
  /\ (forall e on_disk,
        save_output resolve path (WriteRaises e on_disk) w fs
        = (<[resolve path := on_disk]> fs, Some (OSError e)))
  /\ (forall io, io <> IoOk -> (save_output resolve path io w fs).2 <> None)
  /\ (forall io, save_output resolve "" io w fs = (fs, None)).
Proof.
  intros Hpath.
  assert (Htruthy : truthy path = true) by by apply truthy_nonempty.
  unfold save_output, encode_utf_8, linesep. rewrite Htruthy, translate_newlines_nl.
  simpl. split; [done|]. split.
  { intros Hkeeps. rewrite lookup_insert_eq. unfold toPlainText.
    by rewrite plain_text_keeps. }
  split; [done|]. split; [done|]. split; [|done].
  intros io Hio. by destruct io.
Qed.

Lemma save_output_writes_log_witness :
  "out.txt" <> ""
  /\ save_output (fun _ => 7%nat) "out.txt" IoOk after_success ∅
     = (<[7%nat := toPlainText after_success]> ∅, None).
Proof.
  assert (H1 : "out.txt" <> "") by discriminate.
  split; [exact H1|].
  apply (save_output_writes_log (fun _ => 7%nat) "out.txt" after_success ∅ H1).
Defined.

(** The bytes of the file after a command that succeeded: the check mark
    of the marker is E2 9C 93. *)
Example save_output_bytes :
  (save_output (fun _ => 7%nat) "out.txt" IoOk after_success ∅).1 !! 7%nat
  = Some (nl +:+ "$ true" +:+ nl +:+ nl +:+ "✓ Command completed successfully" +:+ nl)
  /\ N_of_ascii <$> list_ascii_of_string ("✓" +:+ nl) = [226; 156; 147; 10]%N.
Proof. split; vm_compute; reflexivity. Qed.

(** ** More on the drain step *)

Lemma dispatch_set_output_queue (m : msg) (q : list msg) (w : state) :
  dispatch m (set_output_queue q w) = set_output_queue q (dispatch m w).
Proof.
  destruct m as [l|c|e]; [done| |done].
  unfold dispatch, on_command_finished. by destruct (c =? 0)%Z.
Qed.

Lemma drain_set_output_queue (q q0 : list msg) (w : state) :
  drain q (set_output_queue q0 w) = drain q w.
Proof. by destruct q. Qed.

Lemma drain_app (q q' : list msg) (w : state) :
  drain (q ++ q') w = drain q' (drain q w).
Proof.
  revert w. induction q as [|m q IH]; intros w; simpl.
  - by rewrite drain_set_output_queue.
  - by rewrite !dispatch_set_output_queue, !drain_set_output_queue, IH.
Qed.

Lemma dispatch_output (m : msg) (w : state) :
  output (dispatch m w) = output w ++ [render m].
Proof.
  destruct m as [l|c|e]; [done| |done].
  unfold dispatch, on_command_finished, render. by destruct (c =? 0)%Z.
Qed.

Lemma drain_output (q : list msg) (w : state) :
  output (drain q w) = output w ++ (render <$> q).
Proof.
  revert w. induction q as [|m q IH]; intros w; simpl.
  - by rewrite app_nil_r.
  - rewrite IH, dispatch_output. simpl. by rewrite <- app_assoc.
Qed.

(** X1: a drain empties the queue and adds to the log one entry for each
    message that waited, in the order of the queue: the line itself for
    [output], the error line for [error], the success or failure marker
    for [finished]; what the log held before stays in front.  The text of
    the log, as [toPlainText()] gives it, grows by the text of each entry
    as Qt gives it back (a no-break space as a space, a line or paragraph
    separator as a line feed); the markers read back as they are. *)
Theorem update_output_log (w : state) :
  output_queue (update_output w) = []
  /\ output (update_output w) = output w ++ (render <$> output_queue w)
  /\ toPlainText (update_output w)
     = toPlainText w
       +:+ foldr (fun m acc => qt_plain (render m).1 +:+ acc) "" (output_queue w)
  /\ (forall c, qt_keeps (render (MFinished c)).1).
Proof.
  destruct (drain_frame (output_queue w) w) as (Hq & _).
  split; [exact Hq|]. split; [apply drain_output|]. split.
  - unfold toPlainText, update_output. rewrite drain_output, plain_text_app.
    f_equal. unfold plain_text. by rewrite foldr_fmap.
  - intros c. unfold render. destruct (c =? 0)%Z; [apply qt_plain_success|].
    apply (qt_plain_failure (str_int c)), str_int_ordinary.
Qed.

(** X19: draining twice in a row is draining once: the second
    [update_output] finds the queue empty and changes nothing, so the
    timer may fire any number of times between two puts. *)
Theorem update_output_idempotent (w : state) (n : nat) :
  Nat.iter (S n) update_output w = update_output w.
Proof.
  induction n as [|n IH]; [done|].
  change (Nat.iter (S (S n)) update_output w)
    with (update_output (Nat.iter (S n) update_output w)).
  by rewrite IH, update_output_twice.
Qed.

Lemma dispatch_not_finished (m : msg) (w : state) :
  is_finished m = false ->
  current_process (dispatch m w) = current_process w
  /\ status_label (dispatch m w) = status_label w
  /\ stop_btn (dispatch m w) = stop_btn w
  /\ emitted (dispatch m w) = emitted w.
Proof. by destruct m. Qed.

Lemma finished_resets (c : Z) (w : state) :
  current_process (dispatch (MFinished c) w) = None
  /\ status_label (dispatch (MFinished c) w) = idle_label
  /\ stop_btn (dispatch (MFinished c) w) = false.
Proof. unfold dispatch, on_command_finished. by destruct (c =? 0)%Z. Qed.

Lemma drain_status (q : list msg) (w : state) :
  current_process (drain q w)
    = (if has_finished q then None else current_process w)
  /\ status_label (drain q w)
    = (if has_finished q then idle_label else status_label w)
  /\ stop_btn (drain q w) = (if has_finished q then false else stop_btn w).
Proof.
  revert w. induction q as [|m q IH]; intros w; [done|].
  simpl. destruct (IH (dispatch m (set_output_queue q w))) as (-> & -> & ->).
  destruct (is_finished m) eqn:Hm; simpl.
  - destruct m as [|c|]; try discriminate.
    destruct (finished_resets c (set_output_queue q w)) as (-> & -> & ->).
    by destruct (has_finished q).
  - destruct (dispatch_not_finished m (set_output_queue q w) Hm) as (-> & -> & -> & _).
    done.
Qed.

(** X2: a drain resets the widget exactly when a [finished] event
    waited: then the status is idle, the stop button disabled and
    [current_process] cleared; with only [output] and [error] events on
    the queue, status, stop button and [current_process] stay as they
    were. *)
Theorem update_output_status (w : state) :
  current_process (update_output w)
    = (if has_finished (output_queue w) then None else current_process w)
  /\ status_label (update_output w)
    = (if has_finished (output_queue w) then idle_label else status_label w)
  /\ stop_btn (update_output w)
    = (if has_finished (output_queue w) then false else stop_btn w).
Proof. apply drain_status. Qed.

Lemma drain_codes (q : list msg) (w : state) :
  (emitted (drain q w)).*1 = (emitted w).*1 ++ codes q.
Proof.
  revert w. induction q as [|m q IH]; intros w; simpl.
  - by rewrite app_nil_r.
  - rewrite IH. destruct m as [l|c|e]; simpl; [done| |done].
    unfold on_command_finished.
    destruct (c =? 0)%Z; simpl; by rewrite fmap_app, <- app_assoc.
Qed.

(** X3: a drain emits [command_finished] once for each [finished] event
    that waited, with its exit status, in the order of the queue, and for
    nothing else. *)
Theorem update_output_emits (w : state) :
  (emitted (update_output w)).*1 = (emitted w).*1 ++ codes (output_queue w)
  /\ length (emitted (update_output w))
     = length (emitted w) + length (filter (fun m => is_finished m = true) (output_queue w)).
Proof.
  split; [apply drain_codes|].
  assert (H := drain_codes (output_queue w) w).
  apply (f_equal length) in H. rewrite length_app, !length_fmap in H.
  unfold update_output. rewrite H. f_equal. clear H.
  induction (output_queue w) as [|m q IH]; [done|].
  destruct m as [l|c|e].
  - rewrite filter_cons_False by done. exact IH.
  - rewrite filter_cons_True by done. simpl. by rewrite <- IH.
  - rewrite filter_cons_False by done. exact IH.
Qed.

(** X4: when a [finished] event is the last message that waited, the
    last [command_finished] emission carries its exit status and the
    whole text of the log as the drain leaves it, that is, as
    [toPlainText()] gives it then: the text before the drain, then the
    text of each entry the drain added, as Qt gives it back. *)
Theorem update_output_emits_full_log (w : state) (q : list msg) (c : Z) :
  output_queue w = q ++ [MFinished c] ->
  last (emitted (update_output w)) = Some (c, toPlainText (update_output w))
  /\ toPlainText (update_output w)
     = toPlainText w
       +:+ foldr (fun m acc => qt_plain (render m).1 +:+ acc) "" (q ++ [MFinished c]).
Proof.
  intros Hq. split.
  - unfold update_output. rewrite Hq, drain_app.
    generalize (drain q w) as w1. intros w1.
    unfold toPlainText, drain, dispatch, on_command_finished.
    destruct (c =? 0)%Z; simpl; by rewrite last_snoc.
  - rewrite <- Hq. unfold toPlainText, update_output.
    rewrite drain_output, plain_text_app. f_equal.
    unfold plain_text. by rewrite foldr_fmap.
Qed.

Lemma update_output_emits_full_log_witness :
  let w := set_output_queue [MOutput ("hi" +:+ nl); MFinished 2]
             (execute_command "echo hi; exit 2" None init) in
  output_queue w = [MOutput ("hi" +:+ nl)] ++ [MFinished 2]
  /\ last (emitted (update_output w)) = Some (2%Z, toPlainText (update_output w)).
Proof.
  intros w. split; [reflexivity|].
  apply (update_output_emits_full_log w [MOutput ("hi" +:+ nl)] 2). reflexivity.
Defined.

(** ** More on the steps of a thread *)

Lemma execute_command_keeps (c : string) (d : option string) (w : state) :
  children (execute_command c d w) = children w
  /\ terminated (execute_command c d w) = terminated w
  /\ emitted (execute_command c d w) = emitted w.
Proof. done. Qed.

(** X5: in every run, [current_process] and every target of a
    [terminate()] call name a child that was spawned. *)
Theorem handles_stay_valid (s : list action) : handles_valid (run init s).
Proof.
  assert (Hstep : forall w a, handles_valid w -> handles_valid (step w a)).
  { intros w a [Hcp Hterm]. destruct a as [c d| | | |tid r]; unfold step.
    - done.
    - destruct (drain_frame (output_queue w) w) as (_ & _ & _ & Hch & Ht).
      destruct (drain_status (output_queue w) w) as (Hcp' & _).
      unfold update_output in *. split.
      + intros p. rewrite Hcp', Hch. destruct (has_finished _); [done|apply Hcp].
      + by rewrite Hch, Ht.
    - unfold stop_command. destruct (current_process w) as [p|] eqn:E;
        [|split; [intros p Hp; by rewrite E in Hp|exact Hterm]].
      split; simpl.
      + intros p'. rewrite E. intros [= <-]. by apply Hcp.
      + apply Forall_app. split; [done|]. constructor; [by apply Hcp|constructor].
    - done.
    - destruct (threads w !! tid) as [th|] eqn:Hth;
        [|by rewrite run_in_thread_no_thread].
      destruct (run_in_thread_effect tid r w th Hth)
        as (ms & l & _ & _ & _ & _ & _ & Ht & [(_ & _ & _ & Hch & Hcp')|[Hch Hcp']]).
      + split.
        * intros p. rewrite Hcp', Hch, length_app. intros [= <-]. simpl. lia.
        * rewrite Ht, Hch, length_app. eapply Forall_impl; [exact Hterm|].
          intros p Hp. simpl in *. lia.
      + split; [by rewrite Hcp', Hch|by rewrite Ht, Hch]. }
  assert (Hrun : forall s w, handles_valid w -> handles_valid (run w s)).
  { clear s. induction s as [|a s IH]; intros w Hw; [done|].
    simpl. apply IH. by apply Hstep. }
  apply Hrun. split; [done|constructor].
Qed.

(** X6: in every run the stop button is enabled exactly when the status
    label reads "Running", and disabled exactly when it reads "Idle"; the
    label is never anything else. *)
Theorem stop_btn_follows_status (s : list action) :
  let w := run init s in
  (stop_btn w = true /\ status_label w = running_label)
  \/ (stop_btn w = false /\ status_label w = idle_label).
Proof.
  simpl.
  assert (Hrun : forall s w,
            (stop_btn w = true /\ status_label w = running_label)
            \/ (stop_btn w = false /\ status_label w = idle_label) ->
            (stop_btn (run w s) = true /\ status_label (run w s) = running_label)
            \/ (stop_btn (run w s) = false /\ status_label (run w s) = idle_label)).
  { clear s. induction s as [|a s IH]; intros w Hw; [done|].
    simpl. apply IH. destruct a as [c d| | | |tid r]; unfold step.
    - by left.
    - unfold update_output.
      destruct (drain_status (output_queue w) w) as (_ & -> & ->).
      destruct (has_finished _); [by right|done].
    - destruct (stop_command_keeps w) as (_ & _ & ->).
      unfold stop_command. by destruct (current_process w).
    - done.
    - destruct (threads w !! tid) as [th|] eqn:Hth;
        [|by rewrite run_in_thread_no_thread].
      destruct (run_in_thread_effect tid r w th Hth)
        as (ms & l & _ & _ & _ & _ & Hui & _).
      by injection Hui as -> -> _ _. }
  apply Hrun. by right.
Qed.

(** ** The queue over a run *)

Lemma stop_command_emitted (w : state) : emitted (stop_command w) = emitted w.
Proof. unfold stop_command. by destruct (current_process w). Qed.

(** The put history splits into what has been drained and what waits;
    the exit statuses emitted are those drained. *)
Lemma history_splits (s : list action) :
  exists drained,
    (puts (run init s)).*2 = drained ++ output_queue (run init s)
    /\ (emitted (run init s)).*1 = codes drained.
Proof.
  assert (Hrun : forall s w,
            (exists drained, (puts w).*2 = drained ++ output_queue w
                             /\ (emitted w).*1 = codes drained) ->
            exists drained, (puts (run w s)).*2 = drained ++ output_queue (run w s)
                            /\ (emitted (run w s)).*1 = codes drained).
  { clear s. induction s as [|a s IH]; intros w Hw; [done|].
    simpl. apply IH. destruct Hw as (drained & Hputs & Hem).
    destruct a as [c d| | | |tid r]; unfold step.
    - by exists drained.
    - destruct (update_output_frame w) as [_ Hp].
      destruct (drain_frame (output_queue w) w) as (Hq & _).
      assert (Hcodes := drain_codes (output_queue w) w).
      fold (update_output w) in Hq, Hcodes.
      exists (drained ++ output_queue w).
      rewrite Hp, Hq, Hcodes, Hem, app_nil_r. split; [done|].
      unfold codes. by rewrite omap_app.
    - destruct (stop_command_frame w) as [_ Hp].
      destruct (stop_command_keeps w) as (Hq & _).
      exists drained. by rewrite Hp, Hq, stop_command_emitted.
    - by exists drained.
    - destruct (threads w !! tid) as [th|] eqn:Hth;
        [|rewrite run_in_thread_no_thread by done; by exists drained].
      destruct (run_in_thread_effect tid r w th Hth)
        as (ms & l & _ & _ & Hp & Hq & Hui & _).
      exists drained. rewrite Hp, Hq, fmap_app, tagged_snd, Hputs.
      split; [by rewrite app_assoc|]. by injection Hui as _ _ _ ->. }
  apply Hrun. by exists [].
Qed.

(** X7: the queue is first in, first out and loses nothing: in every
    run, the messages [update_output] has taken off the queue, followed by
    those that wait, are the messages the threads have put, each once and
    in the order of the puts; so the queue holds the latest puts. *)
Theorem queue_holds_latest_puts (s : list action) :
  let w := run init s in
  dispatched init s ++ output_queue w = (puts w).*2
  /\ output_queue w = drop (length (dispatched init s)) (puts w).*2
  /\ dispatched init s = take (length (dispatched init s)) (puts w).*2.
Proof.
  simpl. assert (H := queue_history_init s).
  split; [exact H|]. rewrite <- H. split.
  - by rewrite drop_app_length.
  - by rewrite take_app_length.
Qed.

(** X8: the exit statuses: in every run, those already emitted through
    [command_finished], followed by those of the [finished] events still
    on the queue, are the exit statuses the threads have put, each once
    and in the order of the puts. *)
Theorem exit_statuses_accounted (s : list action) :
  let w := run init s in
  (emitted w).*1 ++ codes (output_queue w) = codes (puts w).*2.
Proof.
  simpl. destruct (history_splits s) as (drained & -> & ->).
  unfold codes. by rewrite omap_app.
Qed.

(** ** Children over a run *)

Lemma move_called_popen (th : thread) (ms : list msg) (l : pc) :
  move (at_pc th) ms l -> called_popen th = true ->
  called_popen (with_pc l th) = true.
Proof.
  unfold called_popen. simpl. intros Hmove.
  inversion Hmove; subst; done.
Qed.

Lemma past_popen_insert (ths : list thread) (tid : nat) (th th' : thread) :
  ths !! tid = Some th ->
  length (past_popen (<[tid := th']> ths)) + (if called_popen th then 1 else 0)
  = length (past_popen ths) + (if called_popen th' then 1 else 0).
Proof.
  intros Hth. rewrite insert_take_drop by by apply lookup_lt_is_Some.
  rewrite <- (take_drop_middle ths tid th Hth) at 3.
  unfold past_popen. rewrite !filter_app, !filter_cons, !length_app.
  destruct (called_popen th), (called_popen th');
    repeat case_decide; try done; simpl; lia.
Qed.

(** X9: in every run there are at most as many children as threads that
    are past their [Popen] call, so never more children than commands
    started. *)
Theorem one_child_per_command (s : list action) :
  let w := run init s in
  length (children w) <= length (past_popen (threads w))
  /\ length (children w) <= length (threads w).
Proof.
  simpl.
  assert (Hrun : forall s w,
            length (children w) <= length (past_popen (threads w)) ->
            length (children (run w s)) <= length (past_popen (threads (run w s)))).
  { clear s. induction s as [|a s IH]; intros w Hw; [done|].
    simpl. apply IH. destruct a as [c d| | | |tid r]; unfold step.
    - destruct (execute_command_frame c d w) as (-> & _).
      destruct (execute_command_keeps c d w) as (-> & _).
      unfold past_popen. rewrite filter_app, length_app. unfold past_popen in Hw. lia.
    - destruct (update_output_frame w) as [-> _].
      destruct (drain_frame (output_queue w) w) as (_ & _ & _ & Hch & _).
      unfold update_output. by rewrite Hch.
    - destruct (stop_command_frame w) as [-> _].
      unfold stop_command. by destruct (current_process w).
    - done.
    - destruct (threads w !! tid) as [th|] eqn:Hth;
        [|by rewrite run_in_thread_no_thread].
      destruct (run_in_thread_effect tid r w th Hth)
        as (ms & l & Hmove & -> & _ & _ & _ & _ & Hcases).
      assert (Hins := past_popen_insert (threads w) tid th (with_pc l th) Hth).
      destruct Hcases as [(Hpc & -> & _ & -> & _)|[-> _]].
      + rewrite length_app. simpl.
        unfold called_popen in Hins at 1 2. simpl in Hins. rewrite Hpc in Hins. lia.
      + destruct (called_popen th) eqn:Hc.
        * rewrite (move_called_popen th ms l Hmove Hc) in Hins. lia.
        * destruct (called_popen (with_pc l th)); lia. }
  assert (H : length (children (run init s)) <= length (past_popen (threads (run init s))))
    by (apply Hrun; simpl; lia).
  split; [exact H|]. etrans; [exact H|]. apply length_filter.
Qed.

(** ** Clearing the log *)

Lemma run_in_thread_clear_output (tid : nat) (r : reply) (w : state) :
  run_in_thread tid r (clear_output w) = clear_output (run_in_thread tid r w).
Proof.
  unfold run_in_thread. simpl. destruct (threads w !! tid) as [th|]; [|done].
  destruct (at_pc th), r; try done.
  - destruct (String.eqb line ""); [done|]. by destruct (truthy line).
  - by destruct (current_process w).
  - by destruct (current_process w).
Qed.

(** X10: clearing the log does not touch an invocation in flight: the
    steps of the threads do after a clear what they do without it (same
    puts, same queue, same children, same [current_process]), and the
    only difference is the log, which is empty right after the clear. *)
Theorem clear_output_leaves_threads (s : list action) (w : state) :
  Forall (fun a => thread_step a = true) s ->
  run (clear_output w) s = clear_output (run w s)
  /\ output_queue (clear_output w) = output_queue w
  /\ current_process (clear_output w) = current_process w
  /\ status_label (clear_output w) = status_label w
  /\ toPlainText (clear_output w) = "".
Proof.
  intros Hs. split; [|done].
  revert w. induction Hs as [|a s Ha _ IH]; intros w; [done|].
  destruct a as [| | | |tid r]; try done.
  simpl. by rewrite run_in_thread_clear_output, IH.
Qed.

Lemma clear_output_leaves_threads_witness :
  let s := [Thread 0 (ReadlineReturns ("a" +:+ nl)); Thread 0 (ReadlineReturns "");
            Thread 0 (WaitReturns 0)] in
  Forall (fun a => thread_step a = true) s
  /\ run (clear_output one_running) s = clear_output (run one_running s).
Proof.
  intros s.
  assert (Hs : Forall (fun a => thread_step a = true) s) by repeat constructor.
  split; [exact Hs|]. apply (clear_output_leaves_threads s one_running Hs).
Defined.

(** ** A command from start to finish *)

Lemma dispatch_ui_but_process (m : msg) (w1 w2 : state) :
  ui_but_process w1 = ui_but_process w2 ->
  ui_but_process (dispatch m w1) = ui_but_process (dispatch m w2).
Proof.
  intros [= Hs Hb Ho He]. destruct m as [l|c|e]; unfold ui_but_process; simpl.
  - by rewrite Hs, Hb, Ho, He.
  - unfold on_command_finished, toPlainText.
    destruct (c =? 0)%Z; simpl; by rewrite Ho, He.
  - by rewrite Hs, Hb, Ho, He.
Qed.

Lemma finished_ui (c : Z) (w1 w2 : state) :
  ui_but_process w1 = ui_but_process w2 ->
  ui (dispatch (MFinished c) w1) = ui (dispatch (MFinished c) w2).
Proof.
  intros [= Hs Hb Ho He]. unfold ui; simpl.
  unfold on_command_finished, toPlainText.
  destruct (c =? 0)%Z; simpl; by rewrite Ho, He.
Qed.

Lemma dispatch_ui (m : msg) (w1 w2 : state) :
  ui w1 = ui w2 -> ui (dispatch m w1) = ui (dispatch m w2).
Proof.
  intros [= Hc Hs Hb Ho He]. destruct m as [l|c|e].
  - unfold ui; simpl. by rewrite Hc, Hs, Hb, Ho, He.
  - apply finished_ui. unfold ui_but_process. by rewrite Hs, Hb, Ho, He.
  - unfold ui; simpl. by rewrite Hc, Hs, Hb, Ho, He.
Qed.

Lemma drain_ui (q : list msg) (w1 w2 : state) :
  ui w1 = ui w2 -> ui (drain q w1) = ui (drain q w2).
Proof.
  revert w1 w2. induction q as [|m q IH]; intros w1 w2 H; [exact H|].
  simpl. apply IH. rewrite !dispatch_set_output_queue. by apply dispatch_ui.
Qed.

Lemma drain_ui_finished (q : list msg) (w1 w2 : state) :
  ui_but_process w1 = ui_but_process w2 -> has_finished q = true ->
  ui (drain q w1) = ui (drain q w2).
Proof.
  revert w1 w2. induction q as [|m q IH]; intros w1 w2 H Hq; [done|].
  simpl. rewrite !dispatch_set_output_queue.
  destruct m as [l|c|e].
  - apply IH; [|exact Hq].
    by apply (dispatch_ui_but_process (MOutput l)).
  - apply drain_ui. by apply (finished_ui c).
  - apply IH; [|exact Hq].
    by apply (dispatch_ui_but_process (MError e)).
Qed.

Lemma drain_singleton (m : msg) (w : state) :
  drain [m] w = set_output_queue [] (dispatch m w).
Proof. unfold drain. by rewrite dispatch_set_output_queue. Qed.

Lemma has_finished_app (q q' : list msg) :
  has_finished (q ++ q') = has_finished q || has_finished q'.
Proof. apply existsb_app. Qed.

Lemma has_finished_outputs (lines : list string) :
  has_finished (MOutput <$> lines) = false.
Proof. by induction lines. Qed.

Lemma drain_outputs_emitted (lines : list string) (w : state) :
  emitted (drain (MOutput <$> lines) w) = emitted w.
Proof. revert w. induction lines as [|l lines IH]; intros w; [done|]. simpl. by rewrite IH. Qed.

Section FromStartToFinish.
Variables (tid : nat) (rc : Z).

(** A step of the thread on track does not change what the log, the
    status and the emissions will be once everything due has been put and
    drained. *)
Lemma on_track_step_ui (w : state) (r : reply) rest todo :
  on_track tid rc w (r :: rest) todo ->
  exists todo',
    on_track tid rc (run_in_thread tid r w) rest todo'
    /\ ui (drain (output_queue (run_in_thread tid r w) ++ todo') (run_in_thread tid r w))
       = ui (drain (output_queue w ++ todo) w).
Proof.
  intros Htrack.
  destruct (on_track_step tid rc w r rest todo Htrack)
    as (ms & todo' & -> & Hputs & Htrack').
  exists todo'. split; [exact Htrack'|].
  destruct Htrack as (_ & th & Hth & Hpc).
  destruct (run_in_thread_effect tid r w th Hth)
    as (ms' & l & _ & _ & Hputs' & Hq & Hui & _ & Hcases).
  assert (ms' = ms) as ->.
  { rewrite Hputs in Hputs'. apply app_inv_head in Hputs'.
    apply (f_equal (fmap snd)) in Hputs'. by rewrite !tagged_snd in Hputs'. }
  rewrite Hq, <- app_assoc.
  destruct Hcases as [(Hat & _ & -> & _)|[_ Hcp]].
  - rewrite Hat in Hpc. destruct Hpc as (_ & lines & _ & _ & Htodo).
    simpl in Htodo. apply drain_ui_finished; [exact Hui|].
    rewrite Htodo, !has_finished_app. simpl. by rewrite !orb_true_r.
  - apply drain_ui. unfold ui. injection Hui as -> -> -> ->. by rewrite Hcp.
Qed.

Lemma on_track_run_ui (s : list action) (w : state) todo :
  on_track tid rc w (replies_of tid s) todo ->
  Forall (fun a => tick_or_thread a = true) s ->
  ui (update_output (run w s)) = ui (drain (output_queue w ++ todo) w).
Proof.
  revert w todo. induction s as [|a s IH]; intros w todo Htrack Hs.
  - simpl in *. destruct Htrack as (_ & th & _ & Hpc).
    assert (todo = []) as ->.
    { destruct (at_pc th).
      - by destruct Hpc as (_ & ? & _ & ? & _).
      - destruct Hpc as (_ & _ & l & _ & H & _). by destruct l.
      - by destruct Hpc as (_ & _ & ? & _).
      - by destruct Hpc. }
    by rewrite app_nil_r.
  - inversion Hs as [|? ? Ha Hs']; subst.
    destruct a as [c d| | | |t r]; try done; simpl in Htrack; simpl.
    + (* Tick *)
      destruct (update_output_frame w) as [Hth _].
      destruct (drain_frame (output_queue w) w) as (Hq & _).
      assert (Htrack' : on_track tid rc (update_output w) (replies_of tid s) todo).
      { apply (on_track_ui tid rc w); [done| | |done].
        - intros _. unfold update_output. rewrite Hq. constructor.
        - intros ?. by apply drain_no_finished. }
      rewrite (IH _ _ Htrack' Hs'). unfold update_output.
      rewrite Hq. simpl. by rewrite (drain_app (output_queue w) todo w).
    + destruct (decide (t = tid)) as [->|Hne].
      * destruct (on_track_step_ui w r _ todo Htrack) as (todo' & Htrack' & <-).
        by apply IH.
      * assert (run_in_thread t r w = w) as ->.
        { destruct (threads w !! t) as [th'|] eqn:Hth';
            [|by apply run_in_thread_no_thread].
          apply (run_in_thread_returned t r w th'); [done|].
          destruct Htrack as (Hothers & _). by apply (Hothers t). }
        by apply IH.
Qed.

End FromStartToFinish.

(** X12: a command from start to finish.  Start from a state in which
    every earlier thread has returned and the queue is empty, and let the
    child write [lines] and exit with [rc].  However the timer ticks fall
    between the steps of the thread, after the last drain the log is what
    it was, then the echoed command, then the lines in order, then the
    success marker ([rc] = 0) or the failure marker; the status is idle,
    the stop button disabled, [current_process] cleared, the queue empty,
    and [command_finished] was emitted once, with [rc] and the whole text
    of the log as [toPlainText()] gives it: the text before, then the
    echoed command, the lines and the marker, each as Qt gives it back. *)
Theorem command_from_start_to_finish (w0 : state) (command : string)
    (working_dir : option string) (lines : list string) (rc : Z)
    (s : list action) :
  Forall (fun th => returned th = true) (threads w0) ->
  output_queue w0 = [] ->
  Forall (fun l => l <> "") lines ->
  Forall (fun a => tick_or_thread a = true) s ->
  replies_of (length (threads w0)) s = normal_replies lines rc ->
  let w := update_output (run (execute_command command working_dir w0) s) in
  output w = output w0
             ++ [(nl +:+ "$ " +:+ command +:+ nl, format_of "command")]
             ++ ((fun l => (l, format_of "output")) <$> lines)
             ++ [if (rc =? 0)%Z then success_marker else failure_marker rc]
  /\ status_label w = idle_label
  /\ stop_btn w = false
  /\ current_process w = None
  /\ output_queue w = []
  /\ emitted w = emitted w0 ++ [(rc, toPlainText w)]
  /\ toPlainText w
     = toPlainText w0
       +:+ qt_plain (nl +:+ "$ " +:+ command +:+ nl)
       +:+ plain_text ((fun l => (l, format_of "output")) <$> lines)
       +:+ (if (rc =? 0)%Z then success_marker else failure_marker rc).1.
Proof.
  intros Hret Hq Hlines Hs Hreplies w.
  set (tid := length (threads w0)) in *.
  set (w1 := execute_command command working_dir w0) in *.
  set (todo := (MOutput <$> lines) ++ [MFinished rc]).
  destruct (execute_command_frame command working_dir w0) as (Hth & _ & Hqueue & _).
  fold w1 in Hth, Hqueue.
  assert (Htrack : on_track tid rc w1 (replies_of tid s) todo).
  { split.
    - intros t th Hne. rewrite Hth. intros Hlook.
      destruct (decide (t < length (threads w0))) as [Hlt|Hge].
      + rewrite lookup_app_l in Hlook by done.
        by apply (Forall_lookup_1 _ _ _ _ Hret Hlook).
      + apply lookup_lt_Some in Hlook. rewrite length_app in Hlook. simpl in Hlook.
        subst tid. lia.
    - exists (mkThread command working_dir AtPopen). split.
      + rewrite Hth. rewrite lookup_app_r by done. subst tid. by rewrite Nat.sub_diag.
      + rewrite Hqueue, Hq. simpl. split; [constructor|]. by exists lines. }
  assert (Hui := on_track_run_ui tid rc s w1 todo Htrack Hs).
  fold w in Hui. rewrite Hqueue, Hq in Hui. simpl in Hui.
  assert (Hfinal : drain todo w1
                   = set_output_queue [] (dispatch (MFinished rc) (drain (MOutput <$> lines) w1))).
  { unfold todo. by rewrite drain_app, drain_singleton. }
  assert (Hout : output w = output w0
             ++ [(nl +:+ "$ " +:+ command +:+ nl, format_of "command")]
             ++ ((fun l => (l, format_of "output")) <$> lines)
             ++ [if (rc =? 0)%Z then success_marker else failure_marker rc]).
  { injection Hui as _ _ _ -> _. rewrite drain_output. unfold todo.
    rewrite fmap_app, <- list_fmap_compose. simpl. by rewrite <- !app_assoc. }
  split; [exact Hout|].
  destruct (drain_status todo w1) as (Hcp & Hst & Hbtn).
  assert (Hfin : has_finished todo = true).
  { unfold todo. rewrite has_finished_app. simpl. by rewrite orb_true_r. }
  rewrite Hfin in Hcp, Hst, Hbtn.
  destruct (drain_frame (output_queue (run w1 s)) (run w1 s)) as (Hempty & _).
  fold (update_output (run w1 s)) in Hempty. fold w in Hempty.
  assert (Hem : emitted w = emitted (drain todo w1)) by by injection Hui.
  assert (Htext : toPlainText w = toPlainText (drain todo w1)).
  { unfold toPlainText. by injection Hui as _ _ _ -> _. }
  assert (Hplain : toPlainText w
     = toPlainText w0
       +:+ qt_plain (nl +:+ "$ " +:+ command +:+ nl)
       +:+ plain_text ((fun l => (l, format_of "output")) <$> lines)
       +:+ (if (rc =? 0)%Z then success_marker else failure_marker rc).1).
  { unfold toPlainText. rewrite Hout, !plain_text_app. do 2 f_equal.
    - unfold plain_text. simpl. apply append_nil_r.
    - f_equal. unfold plain_text. simpl. rewrite append_nil_r.
      destruct (rc =? 0)%Z; [apply qt_plain_success|].
      apply (qt_plain_failure (str_int rc)), str_int_ordinary. }
  injection Hui as -> -> -> _ _.
  repeat split; try done.
  rewrite Hem, Htext, Hfinal. simpl.
  unfold on_command_finished, toPlainText.
  destruct (rc =? 0)%Z; simpl; by rewrite drain_outputs_emitted.
Qed.

Lemma command_from_start_to_finish_witness :
  let lines := ["a" +:+ nl; "b" +:+ nl] in
  let s := [Thread 0 PopenReturns; Tick; Thread 0 (ReadlineReturns ("a" +:+ nl));
            Tick; Thread 0 (ReadlineReturns ("b" +:+ nl));
            Thread 0 (ReadlineReturns ""); Thread 0 (WaitReturns 0)] in
  Forall (fun th => returned th = true) (threads init)
  /\ output_queue init = []
  /\ Forall (fun l => l <> "") lines
  /\ Forall (fun a => tick_or_thread a = true) s
  /\ replies_of 0 s = normal_replies lines 0
  /\ status_label (update_output (run (execute_command "printf 'a\nb\n'" None init) s))
     = idle_label.
Proof.
  intros lines s.
  assert (H1 : Forall (fun th => returned th = true) (threads init)) by constructor.
  assert (H2 : output_queue init = []) by reflexivity.
  assert (H3 : Forall (fun l => l <> "") lines) by (repeat constructor; discriminate).
  assert (H4 : Forall (fun a => tick_or_thread a = true) s) by repeat constructor.
  assert (H5 : replies_of 0 s = normal_replies lines 0) by reflexivity.
  repeat (split; [assumption|]).
  apply (command_from_start_to_finish init "printf 'a\nb\n'" None lines 0 s H1 H2 H3 H4 H5).
Defined.

(** ** The Nmap form *)

Lemma bind_inr {A B} (a : A) (k : A -> pyerr + B) : (x ← inr a; k x) = k a.
Proof. reflexivity. Qed.

Lemma subscript_Some (d : gmap string value) (k : string) (v : value) :
  d !! k = Some v -> subscript d k = inr v.
Proof. intros H. unfold subscript. by rewrite H. Qed.

Lemma subscript_None (d : gmap string value) (k : string) :
  d !! k = None -> subscript d k = inl (KeyError k).
Proof. intros H. unfold subscript. by rewrite H. Qed.

Lemma get_truthy_Some (d : gmap string value) (k : string) (v : value) :
  d !! k = Some v -> get_truthy d k = value_truthy v.
Proof. intros H. unfold get_truthy. by rewrite H. Qed.

(** X13: [run_nmap] reads ['target'] and ['scan_type'] with a subscript:
    when one of them is missing from the values it raises [KeyError] for
    the first one missing, ['target'] before ['scan_type'], and no command
    reaches the terminal. *)
Theorem run_nmap_missing_key (split : string -> list string)
    (lower : string -> string) (params : gmap string value) (w : state) :
  params !! "target" = None \/ params !! "scan_type" = None ->
  run_nmap split lower params w
  = inl (KeyError (match params !! "target" with
                   | Some _ => "scan_type"
                   | None => "target"
                   end)).
Proof.
  intros H. unfold run_nmap.
  destruct (params !! "target") as [t|] eqn:Ht.
  - destruct H as [H|H]; [done|].
    by rewrite (subscript_Some _ _ _ Ht), bind_inr, (subscript_None _ _ H).
  - by rewrite (subscript_None _ _ Ht).
Qed.

Lemma run_nmap_missing_key_witness :
  let params : gmap string value := {["target" := VStr "10.0.0.1"]} in
  (params !! "target" = None \/ params !! "scan_type" = None)
  /\ run_nmap (fun s => [s]) (fun s => s) params init = inl (KeyError "scan_type").
Proof.
  intros params.
  assert (H : params !! "target" = None \/ params !! "scan_type" = None)
    by (right; reflexivity).
  split; [exact H|].
  apply (run_nmap_missing_key (fun s => [s]) (fun s => s) params init H).
Defined.

Lemma str_items_strings (l : list string) :
  str_items (filter (fun v => value_truthy v = true) (VStr <$> l))
  = inr (filter (fun s => truthy s = true) l).
Proof.
  induction l as [|x l IH]; [done|]. rewrite fmap_cons.
  destruct (truthy x) eqn:Hx.
  - rewrite !filter_cons_True by done. simpl. by rewrite IH.
  - rewrite !filter_cons_False by (simpl; congruence). exact IH.
Qed.

Lemma join_truthy_strings (l : list string) :
  join_truthy (VStr <$> l)
  = inr (String.concat " " (filter (fun s => truthy s = true) l)).
Proof. unfold join_truthy. by rewrite str_items_strings. Qed.

(** X14: for the values the Nmap form collects (texts for target, scan
    type, ports and timing, a check box for saving) with a timing whose
    first word is [word], [run_nmap] raises nothing and starts exactly one
    command: the words [nmap], the flags of the scan type, [-p] and the
    ports when ports are given, [-] and the first word of the timing in
    lower case, the target as typed, and [-oX] with the file name when
    saving is ticked, the empty words left out, one space between them. *)
Theorem run_nmap_form (split : string -> list string) (lower : string -> string)
    (params : gmap string value) (w : state)
    (target scan_type ports timing word : string) (more : list string) (save : bool) :
  params !! "target" = Some (VStr target) ->
  params !! "scan_type" = Some (VStr scan_type) ->
  params !! "ports" = Some (VStr ports) ->
  params !! "timing" = Some (VStr timing) ->
  params !! "save_output" = Some (VBool save) ->
  timing <> "" ->
  split timing = word :: more ->
  run_nmap split lower params w
  = inr (execute_command
           (String.concat " "
              (filter (fun s => truthy s = true)
                 (nmap_words lower target scan_type ports word save)))
           None w).
Proof.
  intros Ht Hs Hp Htm Hsave Hne Hsplit. unfold run_nmap.
  rewrite (subscript_Some _ _ _ Ht), (subscript_Some _ _ _ Hs), !bind_inr.
  rewrite (get_truthy_Some _ _ _ Hp), (get_truthy_Some _ _ _ Htm),
    (get_truthy_Some _ _ _ Hsave).
  rewrite (subscript_Some _ _ _ Hp), (subscript_Some _ _ _ Htm).
  assert (truthy timing = true) as Htr by by apply truthy_nonempty.
  simpl value_truthy. rewrite Htr. unfold nmap_words.
  destruct (truthy ports), save; unfold mbind, pyerr_bind, bind;
    rewrite Hsplit; cbv beta iota.
  all: match goal with
       | |- _ = inr (execute_command (String.concat _ (filter _ ?ws)) _ _) =>
           let ws' := eval cbn [app] in ws in
           match goal with
           | |- context [join_truthy ?L] => change L with (VStr <$> ws')
           end;
           rewrite (join_truthy_strings ws')
       end; reflexivity.
Qed.

Lemma run_nmap_form_witness :
  let params : gmap string value :=
    list_to_map [("target", VStr "10.0.0.0/24"); ("scan_type", VStr "Quick Scan (-F)");
                 ("ports", VStr ""); ("timing", VStr "T4 (Aggressive)");
                 ("save_output", VBool true)] in
  let split := fun _ : string => ["T4"; "(Aggressive)"] in
  let lower := fun _ : string => "t4" in
  params !! "target" = Some (VStr "10.0.0.0/24")
  /\ params !! "scan_type" = Some (VStr "Quick Scan (-F)")
  /\ params !! "ports" = Some (VStr "")
  /\ params !! "timing" = Some (VStr "T4 (Aggressive)")
  /\ params !! "save_output" = Some (VBool true)
  /\ "T4 (Aggressive)" <> ""
  /\ split "T4 (Aggressive)" = ["T4"; "(Aggressive)"]
  /\ run_nmap split lower params init
     = inr (execute_command "nmap -F -t4 10.0.0.0/24 -oX nmap_10.0.0.0_24.xml" None init).
Proof.
  intros params split lower.
  assert (H1 : params !! "target" = Some (VStr "10.0.0.0/24")) by reflexivity.
  assert (H2 : params !! "scan_type" = Some (VStr "Quick Scan (-F)")) by reflexivity.
  assert (H3 : params !! "ports" = Some (VStr "")) by reflexivity.
  assert (H4 : params !! "timing" = Some (VStr "T4 (Aggressive)")) by reflexivity.
  assert (H5 : params !! "save_output" = Some (VBool true)) by reflexivity.
  assert (H6 : "T4 (Aggressive)" <> "") by discriminate.
  assert (H7 : split "T4 (Aggressive)" = ["T4"; "(Aggressive)"]) by reflexivity.
  repeat (split; [assumption|]).
  rewrite (run_nmap_form split lower params init "10.0.0.0/24" "Quick Scan (-F)" ""
             "T4 (Aggressive)" "T4" ["(Aggressive)"] true H1 H2 H3 H4 H5 H6 H7).
  vm_compute. reflexivity.
Defined.

Lemma list_ascii_of_string_append (s t : string) :
  list_ascii_of_string (s +:+ t) = list_ascii_of_string s ++ list_ascii_of_string t.
Proof.
  induction s as [|c s IH]; [done|]. rewrite append_cons. simpl. by rewrite IH.
Qed.

Lemma string_length_append (s t : string) :
  String.length (s +:+ t) = String.length s + String.length t.
Proof.
  induction s as [|c s IH]; [done|]. rewrite append_cons. simpl. by rewrite IH.
Qed.

Lemma replace_char_gone (a b : Ascii.ascii) (s : string) :
  a <> b -> Forall (fun c => c <> a) (list_ascii_of_string (replace_char a b s)).
Proof.
  intros Hab. induction s as [|c s IH]; simpl; [constructor|].
  constructor; [|exact IH].
  destruct (Ascii.eqb_spec c a); congruence.
Qed.

Lemma replace_char_absent (a b : Ascii.ascii) (s : string) :
  Forall (fun c => c <> a) (list_ascii_of_string s) -> replace_char a b s = s.
Proof.
  induction s as [|c s IH]; simpl; [done|].
  intros H. inversion H as [|? ? Hc Hs]; subst.
  rewrite IH by done. by destruct (Ascii.eqb_spec c a).
Qed.

Lemma replace_char_get (a b : Ascii.ascii) (s : string) (i : nat) :
  String.get i (replace_char a b s)
  = (fun c => if Ascii.eqb c a then b else c) <$> String.get i s.
Proof.
  revert i. induction s as [|c s IH]; intros i; [done|].
  destruct i as [|i]; [done|]. simpl. apply IH.
Qed.

Lemma replace_char_length (a b : Ascii.ascii) (s : string) :
  String.length (replace_char a b s) = String.length s.
Proof. induction s as [|c s IH]; simpl; [done|]. by rewrite IH. Qed.

(** X15: the file name [run_nmap] passes after [-oX] is [nmap_], then
    the target with every slash turned into an underscore and every other
    character kept in its place, none added and none dropped, then
    [.xml]; so it never contains a slash, whatever the target (a network
    in CIDR form, a path, a URL), and the file lands in the working
    directory. *)
Theorem xml_name_no_slash (target : string) :
  exists body,
    xml_name target = "nmap_" +:+ body +:+ ".xml"
    /\ String.length body = String.length target
    /\ (forall i c, String.get i target = Some c ->
          String.get i body = Some (if Ascii.eqb c "/" then "_"%char else c))
    /\ (forall i, String.get i target = None -> String.get i body = None)
    /\ Forall (fun c => c <> "/"%char) (list_ascii_of_string (xml_name target))
    /\ String.length (xml_name target) = 9 + String.length target.
Proof.
  exists (replace_char "/" "_" target). unfold xml_name.
  split; [done|]. split; [apply replace_char_length|].
  split; [intros i c Hc; by rewrite replace_char_get, Hc|].
  split; [intros i Hi; by rewrite replace_char_get, Hi|].
  split.
  - rewrite !list_ascii_of_string_append, !Forall_app. split; [|split].
    + repeat constructor; discriminate.
    + by apply replace_char_gone.
    + repeat constructor; discriminate.
  - rewrite !string_length_append, replace_char_length. simpl. lia.
Qed.

(** ** Running a tool from its form *)

Lemma first_missing_None (fields_config : list field) (values : gmap string value) :
  first_missing fields_config values = None <-> Forall (filled values) fields_config.
Proof.
  unfold filled. induction fields_config as [|f fs IH]; simpl.
  - split; [constructor|done].
  - destruct (field_required f) eqn:Hr, (get_truthy values (field_name f)) eqn:Hv;
      simpl; rewrite ?IH; split; intros H; try done.
    + constructor; [done|exact H].
    + by inversion H.
    + inversion H as [|? ? Hf _]; subst. rewrite Hr, Hv in Hf.
      by specialize (Hf eq_refl).
    + constructor; [rewrite Hr; done|exact H].
    + by inversion H.
    + constructor; [rewrite Hr; done|exact H].
    + by inversion H.
Qed.

Lemma first_missing_Some (fields_config : list field) (values : gmap string value)
    (f : field) :
  first_missing fields_config values = Some f <->
  exists before after,
    fields_config = before ++ f :: after
    /\ Forall (filled values) before
    /\ field_required f = true
    /\ get_truthy values (field_name f) = false.
Proof.
  unfold filled. induction fields_config as [|g fs IH]; simpl.
  - split; [done|]. intros (before & after & H & _). by destruct before.
  - destruct (field_required g) eqn:Hr, (get_truthy values (field_name g)) eqn:Hv; simpl.
    all: try (rewrite IH; split;
      [ intros (before & after & -> & Hb & Hf);
        exists (g :: before), after; split; [done|]; split; [|done];
        constructor; [by rewrite ?Hr, ?Hv|done]
      | intros (before & after & Heq & Hb & Hf1 & Hf2);
        destruct before as [|g' before];
        [ injection Heq as ->; congruence
        | injection Heq as -> ->; exists before, after;
          split; [done|]; split; [by inversion Hb|done] ] ]).
    split.
    + intros [= <-]. exists [], fs. by repeat split.
    + intros (before & after & Heq & Hb & Hf1 & Hf2).
      destruct before as [|g' before]; [by injection Heq as ->|].
      injection Heq as -> ->. inversion Hb as [|? ? Hg _]; subst.
      rewrite Hr, Hv in Hg. by specialize (Hg eq_refl).
Qed.

(** X16: [execute_tool] hands the values to the callback exactly when
    every required field has a true value (a non-empty text, a number
    other than 0, a ticked box) and, for Aircrack-ng, SQLMap and the
    Metasploit console, the user answered Yes; the values passed are the
    ones collected, unchanged. *)
Theorem execute_tool_runs_iff (name : string) (fields_config : list field)
    (values : gmap string value) (yes : bool) :
  (execute_tool name fields_config values yes = Ran values <->
   Forall (filled values) fields_config /\ (name ∈ dangerous -> yes = true))
  /\ (forall v, execute_tool name fields_config values yes = Ran v -> v = values).
Proof.
  unfold execute_tool. split.
  - rewrite <- first_missing_None.
    destruct (first_missing fields_config values) as [f|].
    + split; [done|]. by intros [? _].
    + case_bool_decide as Hd.
      * destruct yes; split; try done.
        -- intros [_ H]. by specialize (H Hd).
      * split; [|done]. intros _. split; [done|]. by intros ?.
  - intros v. destruct (first_missing fields_config values); [done|].
    case_bool_decide; [destruct yes|]; by intros [= <-].
Qed.

(** X17: when a required field lacks a true value, [execute_tool] warns
    about the first such field in the order of the form, asks nothing and
    runs nothing, also for a tool that is not dangerous and whatever the
    user would answer. *)
Theorem execute_tool_warns_first (name : string) (fields_config : list field)
    (values : gmap string value) (yes : bool) (label : string) :
  execute_tool name fields_config values yes = Warned label <->
  exists before f after,
    fields_config = before ++ f :: after
    /\ field_label f = label
    /\ Forall (filled values) before
    /\ field_required f = true
    /\ get_truthy values (field_name f) = false.
Proof.
  unfold execute_tool. split.
  - destruct (first_missing fields_config values) as [f|] eqn:Hf.
    + intros [= <-]. apply first_missing_Some in Hf as (before & after & ? & ? & ? & ?).
      by exists before, f, after.
    + case_bool_decide; [destruct yes|]; done.
  - intros (before & f & after & Heq & <- & Hb & Hr & Hv).
    assert (first_missing fields_config values = Some f) as ->; [|done].
    apply first_missing_Some. by exists before, after.
Qed.

(** ** The quick command bar *)

(** X18: pressing Enter in the quick command bar twice runs the text
    once: the first call starts the command stripped of surrounding
    white space and empties the bar, or, for a blank text, does nothing;
    the second call then finds nothing to run and changes nothing. *)
Theorem run_quick_command_once (strip : string -> string) (w : state)
    (quick_cmd : string) :
  strip "" = "" ->
  let r := run_quick_command strip w quick_cmd in
  run_quick_command strip r.1 r.2 = r
  /\ (strip quick_cmd = "" -> r = (w, quick_cmd))
  /\ (strip quick_cmd <> "" ->
      r = (execute_command (strip quick_cmd) None w, "")).
Proof.
  intros Hstrip. unfold run_quick_command.
  destruct (truthy (strip quick_cmd)) eqn:Ht; simpl.
  - rewrite Hstrip. simpl. split; [done|].
    apply truthy_nonempty in Ht. by split.
  - rewrite Ht. split; [done|]. split; [done|].
    intros Hne. apply truthy_nonempty in Hne. congruence.
Qed.

Lemma run_quick_command_once_witness :
  let strip := fun s : string => if String.eqb s "  id " then "id" else s in
  strip "" = ""
  /\ run_quick_command strip init "  id " = (execute_command "id" None init, "")
  /\ run_quick_command strip (execute_command "id" None init) ""
     = (execute_command "id" None init, "").
Proof.
  intros strip.
  assert (H : strip "" = "") by reflexivity.
  split; [exact H|].
  destruct (run_quick_command_once strip init "  id " H) as (H1 & _ & H3).
  assert (Hr : run_quick_command strip init "  id "
               = (execute_command "id" None init, "")) by (apply H3; discriminate).
  split; [exact Hr|]. by rewrite Hr in H1.
Defined.

(** ** Validating parameters (tools/base_tool.py) *)

Section Validation.
Context {V : Type} `{PyValue V}.
Variable re_match : string -> string -> option bool.
Variable params : gmap string V.

Lemma validate_parameters_cons (param : ToolParameter) (rest : list ToolParameter) :
  accepts re_match params param ->
  validate_parameters re_match (param :: rest) params
  = validate_parameters re_match rest params.
Proof.
  intros [Hreq Hre]. simpl.
  destruct (tp_required param) eqn:Hr; simpl.
  - rewrite (Hreq eq_refl). simpl.
    destruct (to_check param _) as [[regex text]|] eqn:Hc; [|done].
    by rewrite (Hre _ _ eq_refl).
  - destruct (to_check param _) as [[regex text]|] eqn:Hc; [|done].
    by rewrite (Hre _ _ eq_refl).
Qed.

(** The four ways the loop body can go for one parameter. *)
Lemma validate_parameters_head (param : ToolParameter) (rest : list ToolParameter) :
  (accepts re_match params param
   /\ validate_parameters re_match (param :: rest) params
      = validate_parameters re_match rest params)
  \/ (tp_required param = true
      /\ from_option py_truthy false (params !! tp_name param) = false
      /\ validate_parameters re_match (param :: rest) params
         = Some (false, missing_message param))
  \/ ((tp_required param = true ->
       from_option py_truthy false (params !! tp_name param) = true)
      /\ (exists regex text,
            to_check param (params !! tp_name param) = Some (regex, text)
            /\ re_match regex text = Some false)
      /\ validate_parameters re_match (param :: rest) params
         = Some (false, invalid_message param))
  \/ validate_parameters re_match (param :: rest) params = None.
Proof.
  assert (Hbody : validate_parameters re_match (param :: rest) params
    = if tp_required param
         && negb (from_option py_truthy false (params !! tp_name param))
      then Some (false, missing_message param)
      else match to_check param (params !! tp_name param) with
           | Some (regex, text) =>
               match re_match regex text with
               | None => None
               | Some false => Some (false, invalid_message param)
               | Some true => validate_parameters re_match rest params
               end
           | None => validate_parameters re_match rest params
           end) by reflexivity.
  rewrite Hbody. clear Hbody.
  destruct (tp_required param) eqn:Hr,
    (from_option py_truthy false (params !! tp_name param)) eqn:Hv;
    cbn [andb negb].
  2:{ right; left. done. }
  all: destruct (to_check param (params !! tp_name param)) as [[regex text]|] eqn:Hc;
    [destruct (re_match regex text) as [[|]|] eqn:Hm|].
  all: first
    [ left; split; [|reflexivity]; split;
      [ intros ?; congruence
      | intros regex' text' Heq; rewrite Hc in Heq; congruence ]
    | right; right; left; split; [intros ?; congruence|];
      split; [by exists regex, text|reflexivity]
    | right; right; right; reflexivity ].
Qed.

Lemma validate_parameters_true (ps : list ToolParameter) (message : string) :
  validate_parameters re_match ps params = Some (true, message) ->
  message = "" /\ Forall (accepts re_match params) ps.
Proof.
  induction ps as [|param rest IH].
  - intros [= <-]. by split.
  - destruct (validate_parameters_head param rest)
      as [[Hacc ->]|[(_ & _ & ->)|[(_ & _ & ->)| ->]]]; try done.
    intros Hrest. destruct (IH Hrest) as [-> Hall]. split; [done|]. by constructor.
Qed.

Lemma validate_parameters_all (ps : list ToolParameter) :
  Forall (accepts re_match params) ps ->
  validate_parameters re_match ps params = Some (true, "").
Proof.
  induction 1 as [|param rest Hp _ IH]; [done|].
  by rewrite validate_parameters_cons.
Qed.

(** X20: [validate_parameters] returns [(True, "")] exactly when every
    parameter passes: a required one has a true value (so 0, [False] and
    the empty string count as missing), and a true value of a parameter
    with a non-empty pattern matches it; a value that is missing or
    false is never matched against the pattern.  With [True] the message
    is always empty. *)
Theorem validate_parameters_accepts (ps : list ToolParameter) :
  (validate_parameters re_match ps params = Some (true, "") <->
   Forall (accepts re_match params) ps)
  /\ (forall message,
        validate_parameters re_match ps params = Some (true, message) ->
        message = "").
Proof.
  split; [split|].
  - intros Hv. by apply validate_parameters_true in Hv as [_ ?].
  - apply validate_parameters_all.
  - intros message Hv. by apply validate_parameters_true in Hv as [? _].
Qed.

(** X21: when [validate_parameters] rejects, it is for the first
    parameter, in the order of [self.parameters], that does not pass,
    and the message names that parameter's label: "missing" when it is
    required and has no true value, otherwise "invalid format" when its
    value does not match its pattern. *)
Theorem validate_parameters_rejects_first (ps : list ToolParameter) (message : string) :
  validate_parameters re_match ps params = Some (false, message) <->
  exists before param after,
    ps = before ++ param :: after
    /\ Forall (accepts re_match params) before
    /\ ((tp_required param = true
         /\ from_option py_truthy false (params !! tp_name param) = false
         /\ message = missing_message param)
        \/ ((tp_required param = true ->
             from_option py_truthy false (params !! tp_name param) = true)
            /\ exists regex text,
                 to_check param (params !! tp_name param) = Some (regex, text)
                 /\ re_match regex text = Some false
                 /\ message = invalid_message param)).
Proof.
  split.
  - induction ps as [|param rest IH]; [done|].
    destruct (validate_parameters_head param rest)
      as [[Hacc ->]|[(Hr & Hv & ->)|[(Hreq & (regex & text & Hc & Hm) & ->)| ->]]];
      [| | |done].
    + intros Hrest. destruct (IH Hrest) as (before & p & after & -> & Hb & Hp).
      exists (param :: before), p, after. split; [done|]. split; [by constructor|done].
    + intros [= <-]. exists [], param, rest. split; [done|]. split; [constructor|].
      by left.
    + intros [= <-]. exists [], param, rest. split; [done|]. split; [constructor|].
      right. split; [done|]. by exists regex, text.
  - intros (before & param & after & -> & Hb & Hp).
    induction Hb as [|p before Hacc _ IH]; simpl app.
    + destruct Hp as [(Hr & Hv & ->)|(Hreq & regex & text & Hc & Hm & ->)].
      * simpl. by rewrite Hr, Hv.
      * simpl. destruct (tp_required param) eqn:Hr; simpl.
        -- rewrite (Hreq eq_refl). simpl. by rewrite Hc, Hm.
        -- by rewrite Hc, Hm.
    + rewrite <- IH. by apply validate_parameters_cons.
Qed.

End Validation.

(** ** Executing a tool (tools/base_tool.py) *)

Lemma concat_empty_cons (x : string) (xs : list string) :
  String.concat "" (x :: xs) = x +:+ String.concat "" xs.
Proof.
  destruct xs as [|y ys]; simpl; [by rewrite append_nil_r|done].
Qed.

Lemma concat_empty_app (xs ys : list string) :
  String.concat "" (xs ++ ys) = String.concat "" xs +:+ String.concat "" ys.
Proof.
  induction xs as [|x xs IH]; [done|].
  rewrite <- app_comm_cons, !concat_empty_cons, IH. by rewrite append_assoc.
Qed.

Lemma gather_lines (cb : bool) (out err : string) (g : gathered) :
  String.concat "" (stdout_lines (gather cb out err g))
    = String.concat "" (stdout_lines g) +:+ out
  /\ String.concat "" (stderr_lines (gather cb out err g))
    = String.concat "" (stderr_lines g) +:+ err
  /\ callback_calls (gather cb out err g)
    = callback_calls g ++ (if cb then calls_for (out, err, @None Z) else []).
Proof.
  unfold gather, call, calls_for. simpl.
  destruct (truthy out) eqn:Ho, (truthy err) eqn:He, cb; simpl;
    rewrite ?concat_empty_app, ?app_nil_r; simpl; rewrite ?append_nil_r.
  all: try (apply not_true_iff_false in Ho; rewrite truthy_nonempty in Ho;
            apply dec_stable in Ho; subst out).
  all: try (apply not_true_iff_false in He; rewrite truthy_nonempty in He;
            apply dec_stable in He; subst err).
  all: rewrite ?append_nil_r, <- ?app_assoc; done.
Qed.

Lemma stream_reads (cb : bool) (body : list (string * string * option Z))
    (t : turn) (rest : list turn) (g : gathered) :
  forallb goes_on body = true ->
  exists g',
    stream cb ((read_turn <$> body) ++ t :: rest) g = stream cb (t :: rest) g'
    /\ String.concat "" (stdout_lines g')
       = String.concat "" (stdout_lines g) +:+ String.concat "" (body.*1.*1)
    /\ String.concat "" (stderr_lines g')
       = String.concat "" (stderr_lines g) +:+ String.concat "" (body.*1.*2)
    /\ callback_calls g'
       = callback_calls g ++ (if cb then flat_map calls_for body else []).
Proof.
  revert g. induction body as [|[[out err] p] body IH]; intros g Hgo.
  - exists g. rewrite !append_nil_r. destruct cb; by rewrite app_nil_r.
  - simpl in Hgo. apply andb_true_iff in Hgo as [Hthis Hgo].
    destruct (IH (gather cb out err g) Hgo) as (g' & Hs & Ho & He & Hc).
    exists g'. destruct (gather_lines cb out err g) as (Ho' & He' & Hc').
    rewrite Ho, He, Hc, Ho', He', Hc'. rewrite !fmap_cons, !concat_empty_cons.
    simpl fst. simpl snd. rewrite !append_assoc. split; [|split; [done|split; [done|]]].
    + rewrite <- Hs. simpl. unfold goes_on in Hthis. simpl in Hthis.
      destruct p as [rc|]; [|done].
      by destruct (truthy out), (truthy err).
    + destruct cb; [|by rewrite !app_nil_r]. simpl. unfold calls_for at 2. simpl.
      by rewrite <- !app_assoc.
Qed.

(** X22: a run of [execute] that goes well.  With parameters that pass,
    a command that builds, a child that starts, turns in which lines are
    read until both streams are at their end and the child has exited
    with [rc]: the result has [success] true exactly for [rc] = 0, carries
    [rc], the lines of stdout joined in order and those of stderr, and
    what [parse_output] returns for them; the command given to [Popen] is
    the built one, with [sudo] in front when the tool requires root and
    the effective user is not root; the callback got every non-empty
    line in the order read, stdout before stderr within a turn, the
    stderr lines marked [[stderr] ]. *)
Theorem execute_streams {P : Type} (tool : BaseSecurityTool value P)
    (re_match : string -> string -> option bool) (h : host)
    (params : gmap string value) (cb : bool) (cmd : list string)
    (body : list (string * string * option Z)) (rc : Z) (rest : list turn)
    (parsed : option P) :
  Forall (accepts re_match params) (parameters tool) ->
  build_command tool params = Ok cmd ->
  popen h = Ok tt ->
  turns h = (read_turn <$> body) ++ last_turn rc :: rest ->
  forallb goes_on body = true ->
  parse_output tool (String.concat "" body.*1.*1) (String.concat "" body.*1.*2)
    = Ok parsed ->
  execute tool re_match h params cb
  = (Returns (mkToolResult (rc =? 0)%Z rc
                (String.concat "" body.*1.*1) (String.concat "" body.*1.*2)
                parsed),
     Some (with_sudo tool h cmd),
     if cb then flat_map calls_for body else []).
Proof.
  intros Hacc Hbuild Hpopen Hturns Hgo Hparse. unfold execute.
  rewrite (validate_parameters_all re_match params _ Hacc).
  rewrite Hbuild, Hpopen, Hturns.
  destruct (stream_reads cb body (last_turn rc) rest (mkGathered [] [] []) Hgo)
    as (g & -> & Ho & He & Hc).
  simpl in Ho, He.
  change ("" +:+ String.concat "" body.*1.*1) with (String.concat "" body.*1.*1) in Ho.
  change ("" +:+ String.concat "" body.*1.*2) with (String.concat "" body.*1.*2) in He.
  simpl in Hc. unfold stream, last_turn.
  cbn [stdout_line stderr_line poll truthy String.eqb negb andb].
  assert (Hg : gather cb "" "" g = g) by by destruct cb.
  by rewrite Hg, Ho, He, Hparse, Hc.
Qed.

Lemma execute_streams_witness :
  let h := mkHost 1000 (Ok tt)
             [mkTurn (Ok ("PING" +:+ nl)) (Ok "") None;
              mkTurn (Ok "") (Ok ("unreachable" +:+ nl)) (Some 1%Z);
              mkTurn (Ok "") (Ok "") (Some 1%Z)] in
  let params : gmap string value := {["host" := VStr "example.org"]} in
  let body := [("PING" +:+ nl, "", @None Z); ("", "unreachable" +:+ nl, Some 1%Z)] in
  let re_match := fun _ _ : string => Some true in
  Forall (accepts re_match params) (parameters sample_tool)
  /\ turns h = (read_turn <$> body) ++ last_turn 1 :: []
  /\ execute sample_tool re_match h params true
     = (Returns (mkToolResult false 1 ("PING" +:+ nl) ("unreachable" +:+ nl)
                   (Some ["PING" +:+ nl; "unreachable" +:+ nl])),
        Some ["sudo"; "ping"; "-c"; "1"; "example.org"],
        ["PING" +:+ nl; "[stderr] unreachable" +:+ nl]).
Proof.
  intros h params body re_match.
  assert (H1 : Forall (accepts re_match params) (parameters sample_tool)).
  { repeat constructor. }
  assert (H2 : turns h = (read_turn <$> body) ++ last_turn 1 :: []) by reflexivity.
  split; [exact H1|]. split; [exact H2|].
  apply (execute_streams sample_tool re_match h params true
           ["ping"; "-c"; "1"; "example.org"] body 1 [] _ H1);
    reflexivity.
Defined.

(** X23: exceptions inside [execute].  With parameters that pass and a
    command that builds: if [Popen] raises, or a [readline()] raises
    after some turns, the result is the failure result with the text of
    the exception in [stderr], return code -1 and an empty [stdout]: the
    lines read before the exception are not in the result, although the
    callback has received them. *)
Theorem execute_exception {P : Type} (tool : BaseSecurityTool value P)
    (re_match : string -> string -> option bool) (h : host)
    (params : gmap string value) (cb : bool) (cmd : list string) (e : string) :
  Forall (accepts re_match params) (parameters tool) ->
  build_command tool params = Ok cmd ->
  (popen h = Raise e ->
   execute tool re_match h params cb
   = (Returns (failure e), Some (with_sudo tool h cmd), []))
  /\ (forall body t rest,
        popen h = Ok tt ->
        turns h = (read_turn <$> body) ++ t :: rest ->
        forallb goes_on body = true ->
        stdout_line t = Raise e
        \/ (exists out, stdout_line t = Ok out /\ stderr_line t = Raise e) ->
        execute tool re_match h params cb
        = (Returns (failure e), Some (with_sudo tool h cmd),
           if cb then flat_map calls_for body else [])).
Proof.
  intros Hacc Hbuild. unfold execute.
  rewrite (validate_parameters_all re_match params _ Hacc), Hbuild. split.
  - by intros ->.
  - intros body t rest -> -> Hgo Hraise.
    destruct (stream_reads cb body t rest (mkGathered [] [] []) Hgo)
      as (g & -> & _ & _ & Hc).
    simpl in Hc.
    destruct Hraise as [Hout|(out & Hout & Herr)]; simpl; rewrite Hout, ?Herr;
      by rewrite Hc.
Qed.

Lemma execute_exception_witness :
  let h := mkHost 0 (Ok tt)
             [mkTurn (Ok ("PING" +:+ nl)) (Ok "") None;
              mkTurn (Raise "'utf-8' codec can't decode byte 0xff") (Ok "") None] in
  let params : gmap string value := {["host" := VStr "example.org"]} in
  let re_match := fun _ _ : string => Some true in
  Forall (accepts re_match params) (parameters sample_tool)
  /\ build_command sample_tool params = Ok ["ping"; "-c"; "1"; "example.org"]
  /\ execute sample_tool re_match h params true
     = (Returns (failure "'utf-8' codec can't decode byte 0xff"),
        Some ["ping"; "-c"; "1"; "example.org"], ["PING" +:+ nl]).
Proof.
  intros h params re_match.
  assert (H1 : Forall (accepts re_match params) (parameters sample_tool)).
  { repeat constructor. }
  assert (H2 : build_command sample_tool params = Ok ["ping"; "-c"; "1"; "example.org"])
    by reflexivity.
  split; [exact H1|]. split; [exact H2|].
  destruct (execute_exception sample_tool re_match h params true _
              "'utf-8' codec can't decode byte 0xff" H1 H2) as [_ H].
  apply (H [("PING" +:+ nl, "", @None Z)]
           (mkTurn (Raise "'utf-8' codec can't decode byte 0xff") (Ok "") None) []);
    try reflexivity.
  by left.
Defined.

(** X24: [execute] reaches [Popen] only with parameters that all pass
    and a command that [build_command] returned; what it hands to
    [Popen] is that command, with [sudo] in front exactly when the tool
    requires root and the effective user id is not 0.  When it does not
    reach [Popen], the callback is not called either. *)
Theorem execute_spawns_only_valid {P : Type} (tool : BaseSecurityTool value P)
    (re_match : string -> string -> option bool) (h : host)
    (params : gmap string value) (cb : bool) :
  match (execute tool re_match h params cb).1.2 with
  | Some argv =>
      Forall (accepts re_match params) (parameters tool)
      /\ exists cmd, build_command tool params = Ok cmd
           /\ argv = (if requires_root tool && negb (geteuid h =? 0)%Z
                      then "sudo" :: cmd else cmd)
  | None => (execute tool re_match h params cb).2 = []
  end.
Proof.
  unfold execute.
  destruct (validate_parameters re_match (parameters tool) params)
    as [[[|] message]|] eqn:Hv; [|done|done].
  apply validate_parameters_true in Hv as [_ Hacc].
  destruct (build_command tool params) as [cmd|e]; [|done].
  assert (Hgoal : Forall (accepts re_match params) (parameters tool)
           /\ exists cmd0, Ok cmd = Ok cmd0
                /\ (if requires_root tool && negb (geteuid h =? 0)%Z
                    then "sudo" :: cmd else cmd)
                   = (if requires_root tool && negb (geteuid h =? 0)%Z
                      then "sudo" :: cmd0 else cmd0)).
  { split; [done|]. by exists cmd. }
  destruct (popen h); [|done].
  destruct (stream cb (turns h) _) as [[rc|e|] g]; [|done|done].
  by destruct (parse_output tool _ _).
Qed.

(** X25: whatever [execute] returns, [success] is true exactly when the
    return code is 0, and the result is either the failure result (no
    success, return code -1, empty [stdout], the message in [stderr],
    nothing parsed) or carries what [parse_output] returned for its own
    [stdout] and [stderr]; that can be [None], so a successful result can
    be without parsed output. *)
Theorem execute_result_coherent {P : Type} (tool : BaseSecurityTool value P)
    (re_match : string -> string -> option bool) (h : host)
    (params : gmap string value) (cb : bool) (r : ToolResult P) :
  (execute tool re_match h params cb).1.1 = Returns r ->
  (success r = true <-> return_code r = 0%Z)
  /\ (r = failure (stderr r)
      \/ parse_output tool (stdout r) (stderr r) = Ok (parsed_output r))
  /\ (success r = true ->
      parse_output tool (stdout r) (stderr r) = Ok (parsed_output r)).
Proof.
  unfold execute.
  destruct (validate_parameters re_match (parameters tool) params)
    as [[[|] message]|]; [| |done].
  2:{ intros [= <-]. simpl. split; [done|]. split; [by left|done]. }
  destruct (build_command tool params) as [cmd|e]; [|done].
  destruct (popen h); [|intros [= <-]; simpl; split; [done|]; split; [by left|done]].
  destruct (stream cb (turns h) _) as [[rc|e|] g]; [| |done].
  2:{ intros [= <-]. simpl. split; [done|]. split; [by left|done]. }
  destruct (parse_output tool _ _) eqn:Hparse; intros [= <-]; simpl;
    [|split; [done|]; split; [by left|done]].
  split; [apply Z.eqb_eq|]. split; [by right|done].
Qed.

Lemma execute_result_coherent_witness :
  let tool : BaseSecurityTool value (list string) :=
    mkTool false [] (fun _ => Ok ["true"]) (fun _ _ => Ok None) in
  let h := mkHost 0 (Ok tt) [mkTurn (Ok "") (Ok "") (Some 0%Z)] in
  let re_match := fun _ _ : string => Some true in
  (execute tool re_match h ∅ false).1.1 = Returns (mkToolResult true 0 "" "" None)
  /\ (true = true <-> 0%Z = 0%Z).
Proof.
  intros tool h re_match.
  assert (H : (execute tool re_match h ∅ false).1.1
              = Returns (mkToolResult true 0 "" "" None)) by reflexivity.
  split; [exact H|].
  apply (execute_result_coherent tool re_match h ∅ false _ H).
Defined.
